(** * Wayfire geometry algebra and toplevel state

    A shallow embedding of [wayfire/geometry.hpp] and of the toplevel state
    header ([toplevel_state_t], [toplevel_t], the margin helpers).

    C++ [int] is modelled as a [Z] kept in the 32-bit two's complement range;
    every arithmetic operator of the source is followed by an explicit
    wrap-around ([wrap]).  Signed overflow is not checked anywhere in the
    source; the wrap-around is what the supported targets compute, and
    wherever no overflow happens the operators coincide with the ones of [Z]
    (lemmas [int_add_exact], [int_sub_exact], [int_neg_exact]). *)

From Stdlib Require Import ZArith Lia Bool List Setoid Morphisms.
From Stdlib Require Import Ascii String.
From Stdlib Require Import QArith Qround.
From Stdlib Require Import Floats.SpecFloat.
Import ListNotations.
Local Open Scope Z_scope.

(** ** 32-bit signed integers *)

Module Int.

Definition modulus : Z := 2 ^ 32.
Definition half_modulus : Z := 2 ^ 31.
Definition int_min : Z := - half_modulus.
Definition int_max : Z := half_modulus - 1.

(** The value an [int] holds after an operation whose mathematical result
    is [z]. *)
Definition wrap (z : Z) : Z := (z + half_modulus) mod modulus - half_modulus.

(** [z] is a value of type [int]. *)
Definition in_int (z : Z) : Prop := int_min <= z <= int_max.

Definition in_intb (z : Z) : bool := (int_min <=? z) && (z <=? int_max).

Definition int_add (a b : Z) : Z := wrap (a + b).
Definition int_sub (a b : Z) : Z := wrap (a - b).
Definition int_neg (a : Z) : Z := wrap (- a).

(** Two integers that an [int] cannot tell apart. *)
Definition same_int (a b : Z) : Prop := wrap a = wrap b.

End Int.

Import Int.

(** ** Structures of [geometry.hpp] *)

Record point_t : Type := mk_point { px : Z; py : Z }.

Record dimensions_t : Type := mk_dimensions { dim_width : Z; dim_height : Z }.

(** [geometry_t] is [wlr_box]: four [int] fields [x], [y], [width],
    [height]. *)
Record geometry_t : Type := mk_geometry { x : Z; y : Z; width : Z; height : Z }.

(** Corner form: [(x1,y1)] inclusive top-left, [(x2,y2)] one beyond the
    bottom-right. *)
Record rectangle_t : Type := mk_rectangle { x1 : Z; y1 : Z; x2 : Z; y2 : Z }.

(** Field order of the source: left, right, bottom, top. *)
Record geometry_difference_t : Type :=
  mk_difference { left : Z; right : Z; bottom : Z; top : Z }.

(** Value-initialised displacement, the [{}] default argument. *)
Definition zero_difference : geometry_difference_t := mk_difference 0 0 0 0.

Definition int_geometry (g : geometry_t) : Prop :=
  in_int (x g) /\ in_int (y g) /\ in_int (width g) /\ in_int (height g).

Definition int_rectangle (r : rectangle_t) : Prop :=
  in_int (x1 r) /\ in_int (y1 r) /\ in_int (x2 r) /\ in_int (y2 r).

Definition int_difference (d : geometry_difference_t) : Prop :=
  in_int (left d) /\ in_int (right d) /\ in_int (bottom d) /\ in_int (top d).

(** [rectangle_t::rectangle_t(geometry_t g)] *)
Definition rectangle_of_geometry (g : geometry_t) : rectangle_t :=
  mk_rectangle (x g) (y g) (int_add (x g) (width g)) (int_add (y g) (height g)).

(** [rectangle_t::operator geometry_t() const] *)
Definition geometry_of_rectangle (r : rectangle_t) : geometry_t :=
  mk_geometry (x1 r) (y1 r) (int_sub (x2 r) (x1 r)) (int_sub (y2 r) (y1 r)).

(** [operator +(geometry_t const& g, geometry_difference_t const& m)] *)
Definition box_add (g : geometry_t) (m : geometry_difference_t) : geometry_t :=
  mk_geometry
    (int_sub (x g) (left m))
    (int_sub (y g) (top m))
    (int_add (int_add (width g) (left m)) (right m))
    (int_add (int_add (height g) (top m)) (bottom m)).

(** [operator -(geometry_t const& g, geometry_difference_t const& m)] *)
Definition box_sub_difference (g : geometry_t) (m : geometry_difference_t)
  : geometry_t :=
  mk_geometry
    (int_add (x g) (left m))
    (int_add (y g) (top m))
    (int_sub (int_sub (width g) (left m)) (right m))
    (int_sub (int_sub (height g) (top m)) (bottom m)).

(** [operator -(geometry_t const& to, geometry_t const& from)] *)
Definition box_subtract (to from : geometry_t) : geometry_difference_t :=
  mk_difference
    (int_sub (x from) (x to))
    (int_sub (int_add (x to) (width to)) (int_add (x from) (width from)))
    (int_sub (int_add (y to) (height to)) (int_add (y from) (height from)))
    (int_sub (y from) (y to)).

(** [operator -(geometry_difference_t const& delta)] *)
Definition negate (delta : geometry_difference_t) : geometry_difference_t :=
  mk_difference (int_neg (left delta)) (int_neg (right delta))
                (int_neg (bottom delta)) (int_neg (top delta)).

(** ** Edge masks *)

(** The [WLR_EDGE_*] flags are the values of wlroots' [enum wlr_edges]. *)
Definition WLR_EDGE_NONE : Z := 0.
Definition WLR_EDGE_TOP : Z := 1.
Definition WLR_EDGE_BOTTOM : Z := 2.
Definition WLR_EDGE_LEFT : Z := 4.
Definition WLR_EDGE_RIGHT : Z := 8.

(** The condition [(tiled_edges & EDGE)] of the source: non-zero is true. *)
Definition has_edge (tiled_edges edge : Z) : bool :=
  negb (Z.land tiled_edges edge =? 0).

(** [expand_geometry_if] *)
Definition expand_geometry_if (geometry_in : geometry_t) (tiled_edges : Z)
    (tiled_edge_delta delta : geometry_difference_t) : geometry_t :=
  let rectangle := rectangle_of_geometry geometry_in in
  let rx1 := int_sub (x1 rectangle)
      (if has_edge tiled_edges WLR_EDGE_LEFT then left tiled_edge_delta else left delta) in
  let ry1 := int_sub (y1 rectangle)
      (if has_edge tiled_edges WLR_EDGE_TOP then top tiled_edge_delta else top delta) in
  let rx2 := int_add (x2 rectangle)
      (if has_edge tiled_edges WLR_EDGE_RIGHT then right tiled_edge_delta else right delta) in
  let ry2 := int_add (y2 rectangle)
      (if has_edge tiled_edges WLR_EDGE_BOTTOM then bottom tiled_edge_delta else bottom delta) in
  geometry_of_rectangle (mk_rectangle rx1 ry1 rx2 ry2).

(** [geometry_switch_if] *)
Definition geometry_switch_if (tiled_edges : Z) (g1 g0 : rectangle_t) : rectangle_t :=
  mk_rectangle
    (if has_edge tiled_edges WLR_EDGE_LEFT then x1 g1 else x1 g0)
    (if has_edge tiled_edges WLR_EDGE_TOP then y1 g1 else y1 g0)
    (if has_edge tiled_edges WLR_EDGE_RIGHT then x2 g1 else x2 g0)
    (if has_edge tiled_edges WLR_EDGE_BOTTOM then y2 g1 else y2 g0).

(** The displacement [expand_geometry_if] selects edge by edge. *)
Definition select_difference (tiled_edges : Z)
    (tiled_edge_delta delta : geometry_difference_t) : geometry_difference_t :=
  mk_difference
    (if has_edge tiled_edges WLR_EDGE_LEFT then left tiled_edge_delta else left delta)
    (if has_edge tiled_edges WLR_EDGE_RIGHT then right tiled_edge_delta else right delta)
    (if has_edge tiled_edges WLR_EDGE_BOTTOM then bottom tiled_edge_delta else bottom delta)
    (if has_edge tiled_edges WLR_EDGE_TOP then top tiled_edge_delta else top delta).

(** ** Maximization *)

(** Modelled from the spec: [maximization_t] of [wayfire/maximization.hpp],
    a header that [geometry.hpp] includes and that is not translated here.
    The maximization state is one of none, horizontal,
    vertical, full; horizontal stands for the left and right edges, vertical
    for the top and bottom edges, full for all four. *)
Inductive maximization_t : Type :=
  | maximization_none
  | maximization_horizontal
  | maximization_vertical
  | maximization_full.

Definition TILED_EDGES_HORIZONTAL : Z := Z.lor WLR_EDGE_LEFT WLR_EDGE_RIGHT.
Definition TILED_EDGES_VERTICAL : Z := Z.lor WLR_EDGE_TOP WLR_EDGE_BOTTOM.
Definition TILED_EDGES_ALL : Z := Z.lor TILED_EDGES_HORIZONTAL TILED_EDGES_VERTICAL.

(** Modelled from the spec: [maximization_t::as_tiled_edges], the edge mask
    of a maximization state. *)
Definition as_tiled_edges (m : maximization_t) : Z :=
  match m with
  | maximization_none => WLR_EDGE_NONE
  | maximization_horizontal => TILED_EDGES_HORIZONTAL
  | maximization_vertical => TILED_EDGES_VERTICAL
  | maximization_full => TILED_EDGES_ALL
  end.

(** Modelled from the spec: the constructor [maximization_t{tiled_edges}],
    which classifies an edge mask: horizontal needs left and right both set,
    vertical needs top and bottom both set, full needs all four. *)
Definition maximization_of_edges (edges : Z) : maximization_t :=
  let h := has_edge edges WLR_EDGE_LEFT && has_edge edges WLR_EDGE_RIGHT in
  let v := has_edge edges WLR_EDGE_TOP && has_edge edges WLR_EDGE_BOTTOM in
  match h, v with
  | true, true => maximization_full
  | true, false => maximization_horizontal
  | false, true => maximization_vertical
  | false, false => maximization_none
  end.

(** ** Toplevel state *)

Definition decoration_margins_t : Type := geometry_difference_t.

Record toplevel_state_t : Type := mk_toplevel_state {
  mapped : bool;
  geometry : geometry_t;
  gravity : Z;
  tiled_edges : Z;      (* private, with a friend list *)
  fullscreen : bool;
  margins : decoration_margins_t
}.

(** The default member initialisers. *)
Definition default_toplevel_state : toplevel_state_t :=
  mk_toplevel_state false (mk_geometry 100 100 0 0)
    (Z.lor WLR_EDGE_LEFT WLR_EDGE_TOP) 0 false (mk_difference 0 0 0 0).

(** [toplevel_state_t::get_tiled_edges] *)
Definition get_tiled_edges (s : toplevel_state_t) : Z := tiled_edges s.

(** [toplevel_state_t::set_tiled_edges] *)
Definition set_tiled_edges (new_edges : Z) (s : toplevel_state_t) : toplevel_state_t :=
  mk_toplevel_state (mapped s) (geometry s) (gravity s) new_edges
    (fullscreen s) (margins s).

(** [toplevel_state_t::operator maximization_t() const] *)
Definition to_maximization (s : toplevel_state_t) : maximization_t :=
  maximization_of_edges (tiled_edges s).

(** [toplevel_state_t::operator =(maximization_t)] *)
Definition assign_maximization (maximization : maximization_t)
    (s : toplevel_state_t) : toplevel_state_t :=
  mk_toplevel_state (mapped s) (geometry s) (gravity s)
    (as_tiled_edges maximization) (fullscreen s) (margins s).

(** The four comparisons of a [toplevel_state_t] with a [maximization_t],
    all of them [const] members. *)
Inductive comparison_operator : Type := op_lt | op_ge | op_eq | op_ne.

(** What code outside the friend list can do with a [toplevel_state_t]:
    the public data members can be assigned, the public member functions
    can be called, and the whole state can be assigned from another state
    through the copy and move assignments that the compiler declares
    implicitly (the class declares only [operator =(maximization_t)]).  The
    private member [tiled_edges] has no constructor of its own here. *)
Inductive public_access : Type :=
  | assign_mapped (v : bool)
  | assign_geometry (v : geometry_t)
  | assign_gravity (v : Z)
  | assign_fullscreen (v : bool)
  | assign_margins (v : decoration_margins_t)
  | call_to_maximization
  | call_assign_maximization (v : maximization_t)
  | call_compare (op : comparison_operator) (v : maximization_t)
  | call_get_tiled_edges
  | call_set_tiled_edges (v : Z)
  | assign_state (other : toplevel_state_t).

Definition run_public (a : public_access) (s : toplevel_state_t) : toplevel_state_t :=
  match a with
  | assign_mapped v =>
      mk_toplevel_state v (geometry s) (gravity s) (tiled_edges s) (fullscreen s) (margins s)
  | assign_geometry v =>
      mk_toplevel_state (mapped s) v (gravity s) (tiled_edges s) (fullscreen s) (margins s)
  | assign_gravity v =>
      mk_toplevel_state (mapped s) (geometry s) v (tiled_edges s) (fullscreen s) (margins s)
  | assign_fullscreen v =>
      mk_toplevel_state (mapped s) (geometry s) (gravity s) (tiled_edges s) v (margins s)
  | assign_margins v =>
      mk_toplevel_state (mapped s) (geometry s) (gravity s) (tiled_edges s) (fullscreen s) v
  | call_to_maximization => s
  | call_assign_maximization v => assign_maximization v s
  | call_compare _ _ => s
  | call_get_tiled_edges => s
  | call_set_tiled_edges v => set_tiled_edges v s
  | assign_state other => other
  end.

(** The public members whose body assigns [tiled_edges]. *)
Definition is_tiled_edges_writer (a : public_access) : bool :=
  match a with
  | call_assign_maximization _ | call_set_tiled_edges _ | assign_state _ => true
  | _ => false
  end.

(** The classes that may touch a [toplevel_state_t]: the five friends the
    class names, and any other class. *)
Inductive accessing_class : Type :=
  | class_toplevel_view_interface_t
  | class_wayfire_resize
  | class_wayfire_decoration
  | class_grid_animation_t
  | class_view_node_t
  | class_other.

(** The friend declarations of [toplevel_state_t]. *)
Definition is_friend (c : accessing_class) : bool :=
  match c with
  | class_other => false
  | _ => true
  end.

(** An access to a state, as written in the accessing class: the private
    member named directly, to read it or to assign it, or one of the public
    accesses. *)
Inductive state_access : Type :=
  | name_tiled_edges_read
  | name_tiled_edges_write (v : Z)
  | use_public (a : public_access).

(** What the compiler accepts: naming the private member needs a friend,
    the public accesses are open to every class. *)
Definition access_compiles (c : accessing_class) (a : state_access) : bool :=
  match a with
  | name_tiled_edges_read | name_tiled_edges_write _ => is_friend c
  | use_public _ => true
  end.

Definition run_access (a : state_access) (s : toplevel_state_t) : toplevel_state_t :=
  match a with
  | name_tiled_edges_read => s
  | name_tiled_edges_write v =>
      mk_toplevel_state (mapped s) (geometry s) (gravity s) v (fullscreen s) (margins s)
  | use_public p => run_public p s
  end.

(** [expand_geometry_by_margins] *)
Definition expand_geometry_by_margins (geometry : geometry_t)
    (margins : geometry_difference_t) (maximization : maximization_t) : geometry_t :=
  expand_geometry_if geometry (as_tiled_edges maximization) zero_difference margins.

(** [shrink_geometry_by_margins] *)
Definition shrink_geometry_by_margins (geometry : geometry_t)
    (margins : geometry_difference_t) (maximization : maximization_t) : geometry_t :=
  expand_geometry_if geometry (as_tiled_edges maximization) zero_difference
    (negate margins).

(** [expand_dimensions_by_margins] *)
Definition expand_dimensions_by_margins (dim : dimensions_t)
    (margins : geometry_difference_t) : dimensions_t :=
  mk_dimensions
    (int_add (dim_width dim) (int_add (left margins) (right margins)))
    (int_add (dim_height dim) (int_add (top margins) (bottom margins))).

(** [shrink_dimensions_by_margins] *)
Definition shrink_dimensions_by_margins (dim : dimensions_t)
    (margins : geometry_difference_t) : dimensions_t :=
  mk_dimensions
    (int_sub (dim_width dim) (int_add (left margins) (right margins)))
    (int_sub (dim_height dim) (int_add (top margins) (bottom margins))).

(** ** The toplevel and its three copies of the state *)

Record toplevel_t : Type := mk_toplevel {
  _current : toplevel_state_t;
  _pending : toplevel_state_t;
  _committed : toplevel_state_t
}.

(** [toplevel_t::current], [toplevel_t::committed]: read-only references. *)
Definition current (t : toplevel_t) : toplevel_state_t := _current t.
Definition committed (t : toplevel_t) : toplevel_state_t := _committed t.

(** [toplevel_t::pending] returns a mutable reference: the caller reads the
    pending state and may store any update of it. *)
Definition pending (t : toplevel_t) : toplevel_state_t := _pending t.

Definition update_pending (f : toplevel_state_t -> toplevel_state_t)
    (t : toplevel_t) : toplevel_t :=
  mk_toplevel (_current t) (f (_pending t)) (_committed t).

(** Modelled from the spec: [dimensions], declared in [geometry.hpp] and
    defined elsewhere; a pure projection. *)
Definition dimensions (g : geometry_t) : dimensions_t :=
  mk_dimensions (width g) (height g).

(** Modelled from the spec: [operator ==] on [dimensions_t], declared in
    [geometry.hpp] and defined elsewhere. *)
Definition dimensions_eqb (a b : dimensions_t) : bool :=
  (dim_width a =? dim_width b) && (dim_height a =? dim_height b).

(** Modelled from the spec: issuing a transaction, which the subclasses of
    [toplevel_t] implement and the header does not.  The issuer reads the
    pending state and copies it verbatim into the committed state. *)
Definition commit (t : toplevel_t) : toplevel_t :=
  mk_toplevel (_current t) (_pending t) (_pending t).

(** Modelled from the spec: what the acknowledged state is when the client
    chose the size [actual]: the edge or corner named by the gravity stays
    where it is and the opposite edge absorbs the difference. *)
Definition adjust_geometry_for_gravity (s : toplevel_state_t)
    (actual : dimensions_t) : toplevel_state_t :=
  let g := geometry s in
  let gx := if has_edge (gravity s) WLR_EDGE_RIGHT
            then int_add (x g) (int_sub (width g) (dim_width actual)) else x g in
  let gy := if has_edge (gravity s) WLR_EDGE_BOTTOM
            then int_add (y g) (int_sub (height g) (dim_height actual)) else y g in
  mk_toplevel_state (mapped s)
    (mk_geometry gx gy (dim_width actual) (dim_height actual))
    (gravity s) (tiled_edges s) (fullscreen s) (margins s).

(** Modelled from the spec: the acknowledgment of the client, which the
    subclasses of [toplevel_t] implement and the header does not.  The
    committed state is copied into
    the current state; if the size the client chose differs from the
    requested one, the current geometry is the one the client chose,
    anchored by the gravity. *)
Definition acknowledge (actual : dimensions_t) (t : toplevel_t) : toplevel_t :=
  let acked :=
    if dimensions_eqb actual (dimensions (geometry (_committed t)))
    then _committed t
    else adjust_geometry_for_gravity (_committed t) actual in
  mk_toplevel acked (_pending t) (_committed t).

(** What happens to a toplevel over time. *)
Inductive toplevel_event : Type :=
  | ev_mutate_pending (f : toplevel_state_t -> toplevel_state_t)
  | ev_commit
  | ev_acknowledge (actual : dimensions_t).

Definition toplevel_step (t : toplevel_t) (e : toplevel_event) : toplevel_t :=
  match e with
  | ev_mutate_pending f => update_pending f t
  | ev_commit => commit t
  | ev_acknowledge actual => acknowledge actual t
  end.

Definition toplevel_run (t : toplevel_t) (es : list toplevel_event) : toplevel_t :=
  fold_left toplevel_step es t.

Definition is_acknowledge (e : toplevel_event) : bool :=
  match e with ev_acknowledge _ => true | _ => false end.

Definition is_mutation (e : toplevel_event) : bool :=
  match e with ev_mutate_pending _ => true | _ => false end.

(** The pending state after the mutations among [es], applied in order. *)
Definition apply_mutations (es : list toplevel_event) (s : toplevel_state_t)
  : toplevel_state_t :=
  fold_left (fun acc e => match e with ev_mutate_pending f => f acc | _ => acc end) es s.

(** A freshly tracked toplevel, and a run of it: two pending mutations
    before the transaction, one more while the request is outstanding. *)
Definition fresh_toplevel : toplevel_t :=
  mk_toplevel default_toplevel_state default_toplevel_state default_toplevel_state.

Definition sample_mutations : list toplevel_event :=
  [ ev_mutate_pending (run_public (assign_geometry (mk_geometry 10 20 300 400)));
    ev_mutate_pending (set_tiled_edges TILED_EDGES_ALL) ].

Definition sample_later : list toplevel_event :=
  [ ev_mutate_pending (run_public (assign_fullscreen true)) ].

(** ** Containment and intersection *)

(** Modelled from the spec: [operator &(geometry_t, point_t)], declared in
    [geometry.hpp] and defined elsewhere.  The test is half-open: the left
    and top edges are inside, the right and bottom edges are not. *)
Definition contains_point (rect : geometry_t) (point : point_t) : bool :=
  (x rect <=? px point) && (px point <? int_add (x rect) (width rect)) &&
  (y rect <=? py point) && (py point <? int_add (y rect) (height rect)).

(** Two boxes overlap when they have a common point. *)
Definition overlap (a b : geometry_t) : Prop :=
  exists p : point_t, contains_point a p = true /\ contains_point b p = true.

(** Box [inner] lies within box [outer], edge by edge. *)
Definition contained_in (inner outer : geometry_t) : Prop :=
  x outer <= x inner /\ y outer <= y inner /\
  x inner + width inner <= x outer + width outer /\
  y inner + height inner <= y outer + height outer.

(** Modelled from the spec: [geometry_intersection], declared in
    [geometry.hpp] and defined elsewhere.  It returns the overlapping region;
    when there is none, the width and the height are zero and the origin is
    not specified (here it is zero as well). *)
Definition geometry_intersection (r1 r2 : geometry_t) : geometry_t :=
  let ix1 := Z.max (x r1) (x r2) in
  let iy1 := Z.max (y r1) (y r2) in
  let ix2 := Z.min (int_add (x r1) (width r1)) (int_add (x r2) (width r2)) in
  let iy2 := Z.min (int_add (y r1) (height r1)) (int_add (y r2) (height r2)) in
  if (ix1 <? ix2) && (iy1 <? iy2)
  then mk_geometry ix1 iy1 (int_sub ix2 ix1) (int_sub iy2 iy1)
  else mk_geometry 0 0 0 0.

(** The far edges of a box are computed without overflow. *)
Definition box_in_range (g : geometry_t) : Prop :=
  int_geometry g /\ in_int (x g + width g) /\ in_int (y g + height g).

(** ** Floating points and [round_down] *)

(** A C++ [double] is an IEEE 754 binary64 value: a signed zero, an
    infinity, a NaN, or a sign, a mantissa and an exponent. *)
Definition double : Type := spec_float.

Definition is_double (f : double) : bool := valid_binary 53 1024 f.

Record pointf_t : Type := mk_pointf { pf_x : double; pf_y : double }.

(** The rational number a finite [double] denotes. *)
Definition double_value (f : double) : option Q :=
  match f with
  | S754_zero _ => Some (inject_Z 0)
  | S754_finite s m e =>
      let sm := if s then Z.neg m else Z.pos m in
      Some (if 0 <=? e then inject_Z (sm * 2 ^ e)
            else Qmake sm (Z.to_pos (2 ^ (- e))))
  | S754_infinity _ | S754_nan => None
  end.

(** [static_cast<int>(double)]: the fractional part is discarded; there is
    no result ([None]) for a NaN, an infinity or a value whose integral part
    is not an [int], where the behaviour of the conversion is undefined. *)
Definition static_cast_int (f : double) : option Z :=
  match f with
  | S754_zero _ => Some 0
  | S754_finite s m e =>
      let magnitude :=
        if 0 <=? e then Z.pos m * 2 ^ e else Z.pos m / 2 ^ (- e) in
      let z := if s then - magnitude else magnitude in
      if in_intb z then Some z else None
  | S754_infinity _ | S754_nan => None
  end.

(** [pointf_t::round_down] *)
Definition round_down (p : pointf_t) : option point_t :=
  match static_cast_int (pf_x p), static_cast_int (pf_y p) with
  | Some ix, Some iy => Some (mk_point ix iy)
  | _, _ => None
  end.

(** Rounding a rational toward zero. *)
Definition Qtruncate (q : Q) : Z :=
  if Qle_bool 0 q then Qfloor q else Qceiling q.

(** The binary64 value -2.5, that is -(5 * 2^50) * 2^-51. *)
Definition double_minus_2_5 : double :=
  S754_finite true 5629499534213120%positive (-51).

(** ** The rest of [geometry.hpp] *)

(** [clamp<T>] at [T = int]: [std::min(std::max(value, min), max)]. *)
Definition clamp (value min max : Z) : Z := Z.min (Z.max value min) max.

(** The arithmetic of [double]: IEEE 754 binary64, rounding to nearest
    even. *)
Definition double_add (a b : double) : double := SFadd 53 1024 a b.
Definition double_sub (a b : double) : double := SFsub 53 1024 a b.
Definition double_neg (a : double) : double := SFopp a.

(** The conversion of an [int] to [double] in [pointf_t(const point_t&)]. *)
Definition double_of_int (z : Z) : double := binary_normalize 53 1024 z 0 false.

(** [pointf_t::pointf_t()] *)
Definition pointf_zero : pointf_t := mk_pointf (double_of_int 0) (double_of_int 0).

(** [pointf_t::pointf_t(const point_t& pt)] *)
Definition pointf_of_point (pt : point_t) : pointf_t :=
  mk_pointf (double_of_int (px pt)) (double_of_int (py pt)).

(** [pointf_t::operator +], and [operator +=] for the value it leaves in
    [*this]. *)
Definition pointf_add (p other : pointf_t) : pointf_t :=
  mk_pointf (double_add (pf_x p) (pf_x other)) (double_add (pf_y p) (pf_y other)).

(** [pointf_t::operator -(const pointf_t&)], and [operator -=]. *)
Definition pointf_sub (p other : pointf_t) : pointf_t :=
  mk_pointf (double_sub (pf_x p) (pf_x other)) (double_sub (pf_y p) (pf_y other)).

(** [pointf_t::operator -()] *)
Definition pointf_neg (p : pointf_t) : pointf_t :=
  mk_pointf (double_neg (pf_x p)) (double_neg (pf_y p)).

(** ** [tiled_edges_to_string] *)

(** [~x] on a [uint32_t]. *)
Definition uint32_not (z : Z) : Z := Z.lnot z mod modulus.

(** [z] is a value of type [uint32_t]. *)
Definition in_uint32 (z : Z) : Prop := 0 <= z < modulus.

(** The arrays [edges] and [edges_str], side by side. *)
Definition edge_names : list (Z * string) :=
  [ (WLR_EDGE_TOP, "WLR_EDGE_TOP"%string);
    (WLR_EDGE_BOTTOM, "WLR_EDGE_BOTTOM"%string);
    (WLR_EDGE_LEFT, "WLR_EDGE_LEFT"%string);
    (WLR_EDGE_RIGHT, "WLR_EDGE_RIGHT"%string) ].

(** [std::string::empty] *)
Definition string_empty (s : string) : bool :=
  match s with EmptyString => true | String _ _ => false end.

(** One turn of the loop. *)
Definition append_edge_name (tiled_edges : Z) (result : string)
    (entry : Z * string) : string :=
  if has_edge tiled_edges (fst entry)
  then ((if negb (string_empty result) then result ++ "|" else result)
        ++ snd entry)%string
  else result.

Definition tiled_edges_to_string (tiled_edges : Z) : string :=
  if tiled_edges =? 0 then "0"%string
  else if has_edge tiled_edges (uint32_not TILED_EDGES_ALL)
  then "Illegal tiled_edges!"%string
  else if tiled_edges =? TILED_EDGES_ALL then "TILED_EDGES_ALL"%string
  else if tiled_edges =? TILED_EDGES_VERTICAL then "TILED_EDGES_VERTICAL"%string
  else if tiled_edges =? TILED_EDGES_HORIZONTAL then "TILED_EDGES_HORIZONTAL"%string
  else fold_left (append_edge_name tiled_edges) edge_names ""%string.

(** ** Wrap-around arithmetic *)

Section WrapLemmas.

Lemma modulus_pos : 0 < modulus.
Proof. reflexivity. Qed.

Lemma modulus_eq : modulus = 2 * half_modulus.
Proof. reflexivity. Qed.

Lemma wrap_range (z : Z) : in_int (wrap z).
Proof.
  unfold in_int, wrap, int_min, int_max.
  pose proof (Z.mod_pos_bound (z + half_modulus) modulus modulus_pos).
  rewrite modulus_eq in *. lia.
Qed.

Lemma wrap_small (z : Z) : in_int z -> wrap z = z.
Proof.
  unfold in_int, wrap, int_min, int_max. intros Hz.
  rewrite Z.mod_small; rewrite ?modulus_eq; lia.
Qed.

(** Two integers wrap to the same [int] exactly when they differ by a
    multiple of [modulus]. *)
Lemma wrap_congr (a b k : Z) : a = b + k * modulus -> wrap a = wrap b.
Proof.
  intros ->. unfold wrap.
  replace (b + k * modulus + half_modulus) with (b + half_modulus + k * modulus) by ring.
  rewrite Z.mod_add; [reflexivity | discriminate].
Qed.

Lemma wrap_decomp (z : Z) : exists k, wrap z = z + k * modulus.
Proof.
  exists (- ((z + half_modulus) / modulus)). unfold wrap.
  rewrite Z.mod_eq by discriminate. ring.
Qed.

Lemma wrap_idem (z : Z) : wrap (wrap z) = wrap z.
Proof. apply wrap_small, wrap_range. Qed.

Lemma wrap_add_l (a b : Z) : wrap (wrap a + b) = wrap (a + b).
Proof.
  destruct (wrap_decomp a) as [k ->]. apply wrap_congr with (k := k). ring.
Qed.

Lemma wrap_add_r (a b : Z) : wrap (a + wrap b) = wrap (a + b).
Proof. rewrite Z.add_comm, wrap_add_l, Z.add_comm. reflexivity. Qed.

Lemma wrap_sub_l (a b : Z) : wrap (wrap a - b) = wrap (a - b).
Proof.
  destruct (wrap_decomp a) as [k ->]. apply wrap_congr with (k := k). ring.
Qed.

Lemma wrap_sub_r (a b : Z) : wrap (a - wrap b) = wrap (a - b).
Proof.
  destruct (wrap_decomp b) as [k ->]. apply wrap_congr with (k := - k). ring.
Qed.

Lemma wrap_opp (a : Z) : wrap (- wrap a) = wrap (- a).
Proof.
  destruct (wrap_decomp a) as [k ->]. apply wrap_congr with (k := - k). ring.
Qed.

Lemma int_add_exact (a b : Z) : in_int (a + b) -> int_add a b = a + b.
Proof. apply wrap_small. Qed.

Lemma int_sub_exact (a b : Z) : in_int (a - b) -> int_sub a b = a - b.
Proof. apply wrap_small. Qed.

Lemma int_neg_exact (a : Z) : in_int (- a) -> int_neg a = - a.
Proof. apply wrap_small. Qed.

Lemma in_intb_spec (z : Z) : in_intb z = true <-> in_int z.
Proof.
  unfold in_intb, in_int. rewrite andb_true_iff, !Z.leb_le. reflexivity.
Qed.

End WrapLemmas.

#[global] Instance same_int_equivalence : Equivalence same_int.
Proof.
  unfold same_int. split.
  - intros a. reflexivity.
  - intros a b H. symmetry. exact H.
  - intros a b c H1 H2. rewrite H1. exact H2.
Qed.

#[global] Instance add_same_int : Proper (same_int ==> same_int ==> same_int) Z.add.
Proof.
  unfold same_int. intros a a' Ha b b' Hb.
  rewrite <- (wrap_add_l a b), <- (wrap_add_r (wrap a) b), Ha, Hb.
  rewrite wrap_add_l, wrap_add_r. reflexivity.
Qed.

#[global] Instance sub_same_int : Proper (same_int ==> same_int ==> same_int) Z.sub.
Proof.
  unfold same_int. intros a a' Ha b b' Hb.
  rewrite <- (wrap_sub_l a b), <- (wrap_sub_r (wrap a) b), Ha, Hb.
  rewrite wrap_sub_l, wrap_sub_r. reflexivity.
Qed.

#[global] Instance opp_same_int : Proper (same_int ==> same_int) Z.opp.
Proof.
  unfold same_int. intros a a' Ha. rewrite <- (wrap_opp a), Ha. apply wrap_opp.
Qed.

#[global] Instance wrap_same_int_eq : Proper (same_int ==> eq) wrap.
Proof. intros a a' Ha. exact Ha. Qed.

Lemma wrap_same_int (a : Z) : same_int (wrap a) a.
Proof. apply wrap_idem. Qed.

(** Closes [wrap e1 = wrap e2] when [e1] and [e2], with their inner
    [wrap]s dropped, are equal as polynomials. *)
Ltac wrap_eq :=
  unfold int_add, int_sub, int_neg;
  match goal with
  | |- wrap ?a = wrap ?b => change (same_int a b)
  end;
  repeat setoid_rewrite wrap_same_int;
  unfold same_int; f_equal; ring.

(** Closes [wrap e = v] for an [int] [v], given the proof [H] that it is
    one. *)
Ltac wrap_ring H :=
  unfold int_add, int_sub, int_neg;
  match goal with
  | |- wrap ?e = ?v =>
      transitivity (wrap v); [ wrap_eq | apply wrap_small; exact H ]
  end.

(** Settles that the fields of a concrete structure are [int]s. *)
Ltac int_fields :=
  unfold box_in_range, int_geometry, int_rectangle, int_difference, in_int,
    int_min, int_max, half_modulus;
  simpl; lia.

(** ** The box and displacement algebra *)

Section BoxAlgebra.

Lemma has_edge_cases (e edge : Z) : has_edge e edge = true \/ has_edge e edge = false.
Proof. destruct (has_edge e edge); [left | right]; reflexivity. Qed.

(** Going to the corner form and back keeps an [int] box. *)
Lemma geometry_rectangle_geometry (g : geometry_t) :
  int_geometry g -> geometry_of_rectangle (rectangle_of_geometry g) = g.
Proof.
  destruct g as [gx gy gw gh]. intros (Hx & Hy & Hw & Hh). simpl in *.
  unfold geometry_of_rectangle, rectangle_of_geometry. simpl.
  f_equal; [wrap_ring Hw | wrap_ring Hh].
Qed.

Lemma rectangle_geometry_rectangle (r : rectangle_t) :
  int_rectangle r -> rectangle_of_geometry (geometry_of_rectangle r) = r.
Proof.
  destruct r as [a b c d]. intros (Ha & Hb & Hc & Hd). simpl in *.
  unfold geometry_of_rectangle, rectangle_of_geometry. simpl.
  f_equal; [wrap_ring Hc | wrap_ring Hd].
Qed.

(** The corners of [expand_geometry_if]'s result. *)
Lemma expand_geometry_if_corners (g : geometry_t) (e : Z)
    (td d : geometry_difference_t) :
  rectangle_of_geometry (expand_geometry_if g e td d) =
  mk_rectangle
    (int_sub (x g) (left (select_difference e td d)))
    (int_sub (y g) (top (select_difference e td d)))
    (int_add (int_add (x g) (width g)) (right (select_difference e td d)))
    (int_add (int_add (y g) (height g)) (bottom (select_difference e td d))).
Proof.
  unfold expand_geometry_if, rectangle_of_geometry, geometry_of_rectangle. simpl.
  f_equal; wrap_eq.
Qed.

Lemma expand_geometry_if_box_add (g : geometry_t) (e : Z)
    (td d : geometry_difference_t) :
  expand_geometry_if g e td d = box_add g (select_difference e td d).
Proof.
  unfold expand_geometry_if, box_add, rectangle_of_geometry, geometry_of_rectangle.
  simpl. f_equal; wrap_eq.
Qed.

(** At the edge of the range the far corner wraps, and the way back still
    finds the width. *)
Example rectangle_of_geometry_wraps :
  rectangle_of_geometry (mk_geometry 2147483647 0 1 0)
    = mk_rectangle 2147483647 0 (-2147483648) 0
  /\ geometry_of_rectangle (mk_rectangle 2147483647 0 (-2147483648) 0)
    = mk_geometry 2147483647 0 1 0.
Proof. split; reflexivity. Qed.

Example expand_geometry_if_horizontal :
  expand_geometry_if (mk_geometry 0 0 200 100) TILED_EDGES_HORIZONTAL
    (mk_difference 10 10 5 5) zero_difference = mk_geometry (-10) 0 220 100.
Proof. reflexivity. Qed.

Lemma box_add_int (g : geometry_t) (m : geometry_difference_t) :
  int_geometry (box_add g m).
Proof. unfold box_add, int_geometry; simpl. repeat split; apply wrap_range. Qed.

Lemma box_add_negate (b : geometry_t) (d : geometry_difference_t) :
  int_geometry b -> box_add (box_add b d) (negate d) = b.
Proof.
  destruct b as [bx by_ bw bh]. intros (Hx & Hy & Hw & Hh). simpl in *.
  unfold box_add, negate. simpl.
  f_equal; [wrap_ring Hx | wrap_ring Hy | wrap_ring Hw | wrap_ring Hh].
Qed.

Lemma select_difference_negate (e : Z) (d : geometry_difference_t) :
  select_difference e (negate d) zero_difference =
  negate (select_difference e d zero_difference).
Proof.
  unfold select_difference, negate. simpl.
  destruct (has_edge e WLR_EDGE_LEFT), (has_edge e WLR_EDGE_RIGHT),
    (has_edge e WLR_EDGE_BOTTOM), (has_edge e WLR_EDGE_TOP); reflexivity.
Qed.

Lemma select_difference_negate_inactive (e : Z) (d : geometry_difference_t) :
  select_difference e zero_difference (negate d) =
  negate (select_difference e zero_difference d).
Proof.
  unfold select_difference, negate. simpl.
  destruct (has_edge e WLR_EDGE_LEFT), (has_edge e WLR_EDGE_RIGHT),
    (has_edge e WLR_EDGE_BOTTOM), (has_edge e WLR_EDGE_TOP); reflexivity.
Qed.

Lemma negate_negate (d : geometry_difference_t) :
  int_difference d -> negate (negate d) = d.
Proof.
  destruct d as [l r b t]. intros (Hl & Hr & Hb & Ht). simpl in *.
  unfold negate. simpl.
  f_equal; [wrap_ring Hl | wrap_ring Hr | wrap_ring Hb | wrap_ring Ht].
Qed.

Lemma negate_int (d : geometry_difference_t) : int_difference (negate d).
Proof. unfold negate, int_difference; simpl. repeat split; apply wrap_range. Qed.

End BoxAlgebra.

(** C1. For every pair of integer boxes [a] and [b], adding to [a] the
    displacement obtained by subtracting [a] from [b] yields exactly [b]:
    [box_add a (box_subtract b a) = b]. *)
Theorem box_add_box_subtract (a b : geometry_t) :
  int_geometry b -> box_add a (box_subtract b a) = b.
Proof.
  destruct a as [ax ay aw ah], b as [bx by_ bw bh].
  intros (Hx & Hy & Hw & Hh). simpl in *.
  unfold box_add, box_subtract. simpl.
  f_equal; [wrap_ring Hx | wrap_ring Hy | wrap_ring Hw | wrap_ring Hh].
Qed.

Lemma box_add_box_subtract_witness :
  int_geometry (mk_geometry (-2147483648) 2147483647 2147483647 (-1)) /\
  box_add (mk_geometry 3 (-7) 40 50)
          (box_subtract (mk_geometry (-2147483648) 2147483647 2147483647 (-1))
                        (mk_geometry 3 (-7) 40 50))
  = mk_geometry (-2147483648) 2147483647 2147483647 (-1).
Proof.
  split; [int_fields |].
  apply (box_add_box_subtract (mk_geometry 3 (-7) 40 50)
           (mk_geometry (-2147483648) 2147483647 2147483647 (-1))).
  int_fields.
Defined.

(** C7. For every displacement [d], negating twice is the identity, and for
    every box [b], adding [d] and then adding [negate d] returns [b]
    exactly. *)
Theorem negate_involutive_and_inverse (d : geometry_difference_t) (b : geometry_t) :
  int_difference d -> int_geometry b ->
  negate (negate d) = d /\ box_add (box_add b d) (negate d) = b.
Proof.
  intros Hd Hb. split.
  - apply negate_negate. exact Hd.
  - apply box_add_negate. exact Hb.
Qed.

Lemma negate_involutive_and_inverse_witness :
  int_difference (mk_difference 10 (-3) 2147483647 (-2147483648)) /\
  int_geometry (mk_geometry 0 0 200 100) /\
  negate (negate (mk_difference 10 (-3) 2147483647 (-2147483648)))
    = mk_difference 10 (-3) 2147483647 (-2147483648) /\
  box_add (box_add (mk_geometry 0 0 200 100)
                   (mk_difference 10 (-3) 2147483647 (-2147483648)))
          (negate (mk_difference 10 (-3) 2147483647 (-2147483648)))
    = mk_geometry 0 0 200 100.
Proof.
  split; [int_fields |]. split; [int_fields |].
  apply (negate_involutive_and_inverse
           (mk_difference 10 (-3) 2147483647 (-2147483648))
           (mk_geometry 0 0 200 100)); int_fields.
Defined.

(** C8. For every box [g] and displacement [m], [box_add] computes
    [x -= left], [y -= top], [width += left + right],
    [height += top + bottom]; the box (0, 0, 200, 100) with the displacement
    left = 10, right = 10, top = 5, bottom = 5 becomes (-10, -5, 220, 110),
    and subtracting the original box from that result gives the
    displacement back. *)
Theorem box_add_computes (g : geometry_t) (m : geometry_difference_t) :
  box_add g m =
    mk_geometry (int_sub (x g) (left m)) (int_sub (y g) (top m))
      (int_add (width g) (int_add (left m) (right m)))
      (int_add (height g) (int_add (top m) (bottom m)))
  /\ box_add (mk_geometry 0 0 200 100) (mk_difference 10 10 5 5)
       = mk_geometry (-10) (-5) 220 110
  /\ box_subtract (mk_geometry (-10) (-5) 220 110) (mk_geometry 0 0 200 100)
       = mk_difference 10 10 5 5.
Proof.
  split; [| split; reflexivity].
  unfold box_add. f_equal; wrap_eq.
Qed.

(** C9. The origin and size form and the corner form convert into each
    other without loss: a [geometry_t] turned into a [rectangle_t] and back
    is the same box, and a [rectangle_t] turned into a [geometry_t] and back
    is the same rectangle. *)
Theorem geometry_rectangle_lossless (g : geometry_t) (r : rectangle_t) :
  int_geometry g -> int_rectangle r ->
  geometry_of_rectangle (rectangle_of_geometry g) = g /\
  rectangle_of_geometry (geometry_of_rectangle r) = r.
Proof.
  intros Hg Hr. split.
  - apply geometry_rectangle_geometry. exact Hg.
  - apply rectangle_geometry_rectangle. exact Hr.
Qed.

Lemma geometry_rectangle_lossless_witness :
  int_geometry (mk_geometry 2147483647 (-5) 1 (-2147483648)) /\
  int_rectangle (mk_rectangle (-2147483648) 7 2147483647 (-9)) /\
  geometry_of_rectangle
    (rectangle_of_geometry (mk_geometry 2147483647 (-5) 1 (-2147483648)))
    = mk_geometry 2147483647 (-5) 1 (-2147483648) /\
  rectangle_of_geometry
    (geometry_of_rectangle (mk_rectangle (-2147483648) 7 2147483647 (-9)))
    = mk_rectangle (-2147483648) 7 2147483647 (-9).
Proof.
  split; [int_fields |]. split; [int_fields |].
  apply (geometry_rectangle_lossless
           (mk_geometry 2147483647 (-5) 1 (-2147483648))
           (mk_rectangle (-2147483648) 7 2147483647 (-9))); int_fields.
Defined.

(** ** Conditional expansion *)

(** C2. For every box, edge mask [e] and displacement [d],
    [expand_geometry_if] moves each of the four edges on its own, by the
    value of the active displacement where the edge's bit is set in [e] and
    by the value of the inactive displacement (zero by default) elsewhere,
    as [box_add] does; expanding by [d] and then by [negate d] under the
    same mask gives the original box back. *)
Theorem expand_geometry_if_edges_and_inverse (g : geometry_t) (e : Z)
    (d inactive : geometry_difference_t) :
  int_geometry g ->
  rectangle_of_geometry (expand_geometry_if g e d inactive) =
    mk_rectangle
      (int_sub (x1 (rectangle_of_geometry g))
         (if has_edge e WLR_EDGE_LEFT then left d else left inactive))
      (int_sub (y1 (rectangle_of_geometry g))
         (if has_edge e WLR_EDGE_TOP then top d else top inactive))
      (int_add (x2 (rectangle_of_geometry g))
         (if has_edge e WLR_EDGE_RIGHT then right d else right inactive))
      (int_add (y2 (rectangle_of_geometry g))
         (if has_edge e WLR_EDGE_BOTTOM then bottom d else bottom inactive))
  /\ expand_geometry_if g e d inactive =
       box_add g (select_difference e d inactive)
  /\ expand_geometry_if g e d zero_difference =
       box_add g
         (mk_difference
            (if has_edge e WLR_EDGE_LEFT then left d else 0)
            (if has_edge e WLR_EDGE_RIGHT then right d else 0)
            (if has_edge e WLR_EDGE_BOTTOM then bottom d else 0)
            (if has_edge e WLR_EDGE_TOP then top d else 0))
  /\ expand_geometry_if (expand_geometry_if g e d zero_difference) e
       (negate d) zero_difference = g.
Proof.
  intros Hg. repeat split.
  - apply expand_geometry_if_corners.
  - apply expand_geometry_if_box_add.
  - apply expand_geometry_if_box_add.
  - rewrite !expand_geometry_if_box_add, select_difference_negate.
    apply box_add_negate. exact Hg.
Qed.

Lemma expand_geometry_if_edges_and_inverse_witness :
  int_geometry (mk_geometry 0 0 200 100) /\
  expand_geometry_if (mk_geometry 0 0 200 100)
    (Z.lor WLR_EDGE_LEFT WLR_EDGE_RIGHT) (mk_difference 10 20 5 7) zero_difference
    = mk_geometry (-10) 0 230 100 /\
  expand_geometry_if
    (expand_geometry_if (mk_geometry 0 0 200 100)
       (Z.lor WLR_EDGE_LEFT WLR_EDGE_RIGHT) (mk_difference 10 20 5 7) zero_difference)
    (Z.lor WLR_EDGE_LEFT WLR_EDGE_RIGHT) (negate (mk_difference 10 20 5 7))
    zero_difference
    = mk_geometry 0 0 200 100.
Proof.
  split; [int_fields |].
  assert (Hg : int_geometry (mk_geometry 0 0 200 100)) by int_fields.
  destruct (expand_geometry_if_edges_and_inverse (mk_geometry 0 0 200 100)
              (Z.lor WLR_EDGE_LEFT WLR_EDGE_RIGHT) (mk_difference 10 20 5 7)
              zero_difference Hg) as (_ & _ & Hadd & Hinv).
  split; [rewrite Hadd; reflexivity | exact Hinv].
Defined.

(** ** Margins and maximization *)

Section Margins.

Lemma has_edge_as_tiled_edges (m : maximization_t) :
  has_edge (as_tiled_edges m) WLR_EDGE_LEFT =
    match m with maximization_horizontal | maximization_full => true | _ => false end
  /\ has_edge (as_tiled_edges m) WLR_EDGE_RIGHT =
    match m with maximization_horizontal | maximization_full => true | _ => false end
  /\ has_edge (as_tiled_edges m) WLR_EDGE_TOP =
    match m with maximization_vertical | maximization_full => true | _ => false end
  /\ has_edge (as_tiled_edges m) WLR_EDGE_BOTTOM =
    match m with maximization_vertical | maximization_full => true | _ => false end.
Proof. destruct m; repeat split; reflexivity. Qed.

Lemma box_add_zero (g : geometry_t) :
  int_geometry g -> box_add g zero_difference = g.
Proof.
  destruct g as [gx gy gw gh]. intros (Hx & Hy & Hw & Hh). simpl in *.
  unfold box_add, zero_difference. simpl.
  f_equal; [wrap_ring Hx | wrap_ring Hy | wrap_ring Hw | wrap_ring Hh].
Qed.

Lemma shrink_expand_geometry (g : geometry_t) (m : geometry_difference_t)
    (mx : maximization_t) :
  int_geometry g ->
  shrink_geometry_by_margins (expand_geometry_by_margins g m mx) m mx = g.
Proof.
  intros Hg. unfold shrink_geometry_by_margins, expand_geometry_by_margins.
  rewrite !expand_geometry_if_box_add, select_difference_negate_inactive.
  apply box_add_negate. exact Hg.
Qed.

Lemma expand_shrink_geometry (g : geometry_t) (m : geometry_difference_t)
    (mx : maximization_t) :
  int_geometry g ->
  expand_geometry_by_margins (shrink_geometry_by_margins g m mx) m mx = g.
Proof.
  intros Hg. unfold shrink_geometry_by_margins, expand_geometry_by_margins.
  rewrite !expand_geometry_if_box_add, select_difference_negate_inactive.
  destruct g as [gx gy gw gh]. destruct Hg as (Hx & Hy & Hw & Hh). simpl in *.
  unfold box_add, negate. simpl.
  f_equal; [wrap_ring Hx | wrap_ring Hy | wrap_ring Hw | wrap_ring Hh].
Qed.

End Margins.

(** C3. For every box, margins and maximization state,
    [expand_geometry_by_margins] applies the margins on exactly the edges
    that the maximization's edge mask does not cover and leaves the
    maximized edges where they are, and [shrink_geometry_by_margins] with
    the same margins and maximization undoes it. *)
Theorem expand_geometry_by_margins_spec (g : geometry_t)
    (m : geometry_difference_t) (mx : maximization_t) :
  int_geometry g ->
  rectangle_of_geometry (expand_geometry_by_margins g m mx) =
    mk_rectangle
      (if has_edge (as_tiled_edges mx) WLR_EDGE_LEFT
       then x1 (rectangle_of_geometry g)
       else int_sub (x1 (rectangle_of_geometry g)) (left m))
      (if has_edge (as_tiled_edges mx) WLR_EDGE_TOP
       then y1 (rectangle_of_geometry g)
       else int_sub (y1 (rectangle_of_geometry g)) (top m))
      (if has_edge (as_tiled_edges mx) WLR_EDGE_RIGHT
       then x2 (rectangle_of_geometry g)
       else int_add (x2 (rectangle_of_geometry g)) (right m))
      (if has_edge (as_tiled_edges mx) WLR_EDGE_BOTTOM
       then y2 (rectangle_of_geometry g)
       else int_add (y2 (rectangle_of_geometry g)) (bottom m))
  /\ expand_geometry_by_margins g m mx =
       match mx with
       | maximization_none => box_add g m
       | maximization_horizontal => box_add g (mk_difference 0 0 (bottom m) (top m))
       | maximization_vertical => box_add g (mk_difference (left m) (right m) 0 0)
       | maximization_full => g
       end
  /\ shrink_geometry_by_margins (expand_geometry_by_margins g m mx) m mx = g
  /\ expand_geometry_by_margins (shrink_geometry_by_margins g m mx) m mx = g.
Proof.
  intros Hg. split; [| split; [| split]].
  - unfold expand_geometry_by_margins. rewrite expand_geometry_if_corners.
    destruct g as [gx gy gw gh]. destruct Hg as (Hx & Hy & Hw & Hh). simpl in *.
    f_equal.
    + destruct (has_edge _ WLR_EDGE_LEFT); [wrap_ring Hx | reflexivity].
    + destruct (has_edge _ WLR_EDGE_TOP); [wrap_ring Hy | reflexivity].
    + destruct (has_edge _ WLR_EDGE_RIGHT); [| reflexivity].
      unfold int_add. rewrite Z.add_0_r. apply wrap_idem.
    + destruct (has_edge _ WLR_EDGE_BOTTOM); [| reflexivity].
      unfold int_add. rewrite Z.add_0_r. apply wrap_idem.
  - unfold expand_geometry_by_margins. rewrite expand_geometry_if_box_add.
    destruct m as [ml mr mb mt].
    destruct mx; [reflexivity | reflexivity | reflexivity |].
    apply (box_add_zero g Hg).
  - apply shrink_expand_geometry. exact Hg.
  - apply expand_shrink_geometry. exact Hg.
Qed.

Lemma expand_geometry_by_margins_spec_witness :
  int_geometry (mk_geometry 0 0 200 100) /\
  expand_geometry_by_margins (mk_geometry 0 0 200 100) (mk_difference 10 20 5 7)
    maximization_horizontal = mk_geometry 0 (-7) 200 112 /\
  shrink_geometry_by_margins
    (expand_geometry_by_margins (mk_geometry 0 0 200 100) (mk_difference 10 20 5 7)
       maximization_horizontal)
    (mk_difference 10 20 5 7) maximization_horizontal
    = mk_geometry 0 0 200 100.
Proof.
  split; [int_fields |].
  assert (Hg : int_geometry (mk_geometry 0 0 200 100)) by int_fields.
  destruct (expand_geometry_by_margins_spec (mk_geometry 0 0 200 100)
              (mk_difference 10 20 5 7) maximization_horizontal Hg)
    as (_ & Hadd & Hinv & _).
  split; [rewrite Hadd; reflexivity | exact Hinv].
Defined.

(** ** The three copies of the toplevel state *)

Section CommitProtocol.

Lemma toplevel_run_app (t : toplevel_t) (es1 es2 : list toplevel_event) :
  toplevel_run t (es1 ++ es2) = toplevel_run (toplevel_run t es1) es2.
Proof. unfold toplevel_run. apply fold_left_app. Qed.

(** Mutations of the pending state reach nothing else. *)
Lemma toplevel_run_mutations (es : list toplevel_event) :
  forall t : toplevel_t,
  forallb is_mutation es = true ->
  toplevel_run t es =
    mk_toplevel (_current t) (apply_mutations es (_pending t)) (_committed t).
Proof.
  induction es as [| e es IH]; intros t Hes.
  - destruct t; reflexivity.
  - simpl in Hes. apply andb_true_iff in Hes. destruct Hes as [He Hes].
    destruct e as [f | |]; try discriminate.
    unfold toplevel_run, apply_mutations in *. simpl.
    rewrite (IH (update_pending f t) Hes). reflexivity.
Qed.

(** Only an acknowledgment writes the current state. *)
Lemma current_step (t : toplevel_t) (e : toplevel_event) :
  is_acknowledge e = false -> current (toplevel_step t e) = current t.
Proof. destruct e; intros He; [reflexivity | reflexivity | discriminate]. Qed.

Lemma current_run (es : list toplevel_event) :
  forall t : toplevel_t,
  forallb (fun e => negb (is_acknowledge e)) es = true ->
  current (toplevel_run t es) = current t.
Proof.
  induction es as [| e es IH]; intros t Hes; [reflexivity |].
  simpl in Hes. apply andb_true_iff in Hes. destruct Hes as [He Hes].
  unfold toplevel_run in *. simpl. rewrite (IH _ Hes).
  apply current_step. apply negb_true_iff. exact He.
Qed.

Lemma dimensions_eqb_refl (d : dimensions_t) : dimensions_eqb d d = true.
Proof. unfold dimensions_eqb. rewrite !Z.eqb_refl. reflexivity. Qed.

Lemma acknowledge_matching (t : toplevel_t) :
  acknowledge (dimensions (geometry (committed t))) t =
  mk_toplevel (_committed t) (_pending t) (_committed t).
Proof.
  unfold acknowledge, committed. rewrite dimensions_eqb_refl. reflexivity.
Qed.

End CommitProtocol.

(** C4. After fields of the pending state are mutated and a transaction is
    issued, the committed state is the pending state as it is at that
    instant, copied verbatim, and the current state is unchanged until an
    acknowledgment; after an acknowledgment whose values match the request,
    the current state equals the committed state. *)
Theorem commit_protocol (t : toplevel_t) (mutations later : list toplevel_event)
    (actual : dimensions_t) :
  forallb is_mutation mutations = true ->
  forallb (fun e => negb (is_acknowledge e)) later = true ->
  actual =
    dimensions (geometry (committed
      (toplevel_run (toplevel_run t (mutations ++ [ev_commit])) later))) ->
  let issued := toplevel_run t (mutations ++ [ev_commit]) in
  let outstanding := toplevel_run issued later in
  committed issued = apply_mutations mutations (pending t)
  /\ committed issued = pending issued
  /\ current issued = current t
  /\ current outstanding = current t
  /\ current (toplevel_step outstanding (ev_acknowledge actual))
       = committed outstanding
  /\ committed (toplevel_step outstanding (ev_acknowledge actual))
       = committed outstanding.
Proof.
  intros Hmut Hlater Hactual issued outstanding.
  assert (Hissued : issued =
    mk_toplevel (_current t) (apply_mutations mutations (_pending t))
      (apply_mutations mutations (_pending t))).
  { unfold issued. rewrite toplevel_run_app, (toplevel_run_mutations _ t Hmut).
    reflexivity. }
  assert (Hcur : current outstanding = current t).
  { unfold outstanding. rewrite (current_run later issued Hlater), Hissued.
    reflexivity. }
  split; [| split; [| split; [| split; [| split]]]].
  - rewrite Hissued. reflexivity.
  - rewrite Hissued. reflexivity.
  - rewrite Hissued. reflexivity.
  - exact Hcur.
  - subst actual.
    change (current (acknowledge (dimensions (geometry (committed outstanding)))
                       outstanding) = committed outstanding).
    rewrite acknowledge_matching. reflexivity.
  - reflexivity.
Qed.

(** ** Access to [tiled_edges] *)

(** C5, amended. The member [tiled_edges] is private: naming it directly
    compiles in the five friend classes only, so a class outside that list
    reaches a state through the public accesses alone.  Among those,
    [set_tiled_edges], [operator =(maximization_t)] and the implicit
    assignment of a whole state write [tiled_edges] for any caller: after
    [set_tiled_edges v], [get_tiled_edges] returns [v]; after the assignment
    of a maximization it returns that maximization's edge mask; after the
    assignment of another state it returns what that state holds.  Every
    other public access leaves [tiled_edges] as it was.  A friend class may
    assign the member directly. *)
Theorem tiled_edges_public_access (c : accessing_class) (a : state_access)
    (s other : toplevel_state_t) (v : Z) (m : maximization_t) :
  is_friend c = false ->
  access_compiles c a = true ->
  (exists p : public_access,
      a = use_public p
      /\ (is_tiled_edges_writer p = false ->
          get_tiled_edges (run_access a s) = get_tiled_edges s))
  /\ get_tiled_edges (run_public (call_set_tiled_edges v) s) = v
  /\ get_tiled_edges (run_public (call_assign_maximization m) s) = as_tiled_edges m
  /\ get_tiled_edges (run_public (assign_state other) s) = get_tiled_edges other
  /\ (forall f : accessing_class,
        is_friend f = true ->
        access_compiles f (name_tiled_edges_write v) = true
        /\ get_tiled_edges (run_access (name_tiled_edges_write v) s) = v)
  /\ access_compiles c (name_tiled_edges_write v) = false
  /\ access_compiles c name_tiled_edges_read = false.
Proof.
  intros Hc Ha. split; [| split; [| split; [| split; [| split; [| split]]]]].
  - destruct a as [| w | p]; simpl in Ha.
    + rewrite Hc in Ha. discriminate Ha.
    + rewrite Hc in Ha. discriminate Ha.
    + exists p. split; [reflexivity |].
      intros Hp. destruct p; try reflexivity; discriminate Hp.
  - reflexivity.
  - reflexivity.
  - reflexivity.
  - intros f Hf. split; [exact Hf | reflexivity].
  - exact Hc.
  - exact Hc.
Qed.

Lemma tiled_edges_public_access_witness :
  is_friend class_other = false /\
  access_compiles class_other (use_public (assign_gravity WLR_EDGE_RIGHT)) = true /\
  get_tiled_edges
    (run_access (use_public (assign_gravity WLR_EDGE_RIGHT)) default_toplevel_state) = 0 /\
  get_tiled_edges (run_public (call_set_tiled_edges 15) default_toplevel_state) = 15 /\
  get_tiled_edges
    (run_public (call_assign_maximization maximization_full) default_toplevel_state) = 15 /\
  get_tiled_edges
    (run_public (assign_state (set_tiled_edges 3 default_toplevel_state))
       default_toplevel_state) = 3 /\
  access_compiles class_other (name_tiled_edges_write 15) = false.
Proof.
  split; [reflexivity |]. split; [reflexivity |].
  destruct (tiled_edges_public_access class_other
              (use_public (assign_gravity WLR_EDGE_RIGHT))
              default_toplevel_state (set_tiled_edges 3 default_toplevel_state)
              15 maximization_full eq_refl eq_refl)
    as ((p & Hp & Hframe) & Hset & Hmax & Hcopy & _ & Hwrite & _).
  split.
  - injection Hp as <-. rewrite (Hframe eq_refl). reflexivity.
  - split; [exact Hset |]. split; [exact Hmax |]. split; [exact Hcopy | exact Hwrite].
Defined.

(** C5 as stated fails: code outside the friend list changes [tiled_edges]
    by calling the public [set_tiled_edges]. *)
Lemma tiled_edges_public_write :
  ~ (forall (a : public_access) (s : toplevel_state_t),
       get_tiled_edges (run_public a s) = get_tiled_edges s).
Proof.
  intros H.
  specialize (H (call_set_tiled_edges TILED_EDGES_ALL) default_toplevel_state).
  discriminate H.
Qed.

Lemma commit_protocol_witness :
  forallb is_mutation sample_mutations = true /\
  forallb (fun e => negb (is_acknowledge e)) sample_later = true /\
  committed (toplevel_run fresh_toplevel (sample_mutations ++ [ev_commit]))
    = mk_toplevel_state false (mk_geometry 10 20 300 400)
        (Z.lor WLR_EDGE_LEFT WLR_EDGE_TOP) TILED_EDGES_ALL false zero_difference /\
  current (toplevel_run
             (toplevel_run fresh_toplevel (sample_mutations ++ [ev_commit]))
             sample_later)
    = default_toplevel_state /\
  current (toplevel_step
             (toplevel_run
                (toplevel_run fresh_toplevel (sample_mutations ++ [ev_commit]))
                sample_later)
             (ev_acknowledge (mk_dimensions 300 400)))
    = mk_toplevel_state false (mk_geometry 10 20 300 400)
        (Z.lor WLR_EDGE_LEFT WLR_EDGE_TOP) TILED_EDGES_ALL false zero_difference.
Proof.
  split; [reflexivity |]. split; [reflexivity |].
  destruct (commit_protocol fresh_toplevel sample_mutations sample_later
              (mk_dimensions 300 400) eq_refl eq_refl eq_refl)
    as (Hcommitted & _ & _ & Hcurrent & Hack & _).
  split; [rewrite Hcommitted; reflexivity |].
  split; [rewrite Hcurrent; reflexivity |].
  rewrite Hack. reflexivity.
Defined.

(** ** Intersection *)

Section Intersection.

Lemma contains_point_iff (g : geometry_t) (p : point_t) :
  box_in_range g ->
  contains_point g p = true <->
  x g <= px p < x g + width g /\ y g <= py p < y g + height g.
Proof.
  intros (_ & Hx2 & Hy2). unfold contains_point.
  rewrite (int_add_exact _ _ Hx2), (int_add_exact _ _ Hy2).
  rewrite !andb_true_iff, !Z.leb_le, !Z.ltb_lt. lia.
Qed.

(** Two boxes have a common point exactly when the larger of the near
    edges lies before the smaller of the far edges, in both directions. *)
Lemma overlap_iff (a b : geometry_t) :
  box_in_range a -> box_in_range b ->
  overlap a b <->
  Z.max (x a) (x b) < Z.min (x a + width a) (x b + width b) /\
  Z.max (y a) (y b) < Z.min (y a + height a) (y b + height b).
Proof.
  intros Ha Hb. unfold overlap. split.
  - intros (p & Hpa & Hpb).
    apply (contains_point_iff a p Ha) in Hpa.
    apply (contains_point_iff b p Hb) in Hpb. lia.
  - intros H. exists (mk_point (Z.max (x a) (x b)) (Z.max (y a) (y b))).
    rewrite (contains_point_iff a _ Ha), (contains_point_iff b _ Hb). simpl. lia.
Qed.

End Intersection.

(** C6. For every pair of boxes that overlap, [geometry_intersection]
    returns the overlapping region: its width and height are positive, it is
    contained in both boxes, and its points are the common points of the
    two.  For every pair of boxes that do not overlap, the result has zero
    width and zero height; nothing is said about its origin. *)
Theorem geometry_intersection_spec (a b : geometry_t) :
  box_in_range a -> box_in_range b ->
  (overlap a b ->
     0 < width (geometry_intersection a b)
     /\ 0 < height (geometry_intersection a b)
     /\ contained_in (geometry_intersection a b) a
     /\ contained_in (geometry_intersection a b) b
     /\ forall p : point_t,
          contains_point (geometry_intersection a b) p = true <->
          contains_point a p = true /\ contains_point b p = true)
  /\ (~ overlap a b ->
        width (geometry_intersection a b) = 0
        /\ height (geometry_intersection a b) = 0).
Proof.
  intros Ha Hb.
  pose proof (overlap_iff a b Ha Hb) as Hov.
  pose proof Ha as ((Hax & Hay & Haw & Hah) & Hax2 & Hay2).
  pose proof Hb as ((Hbx & Hby & Hbw & Hbh) & Hbx2 & Hby2).
  unfold geometry_intersection.
  rewrite (int_add_exact _ _ Hax2), (int_add_exact _ _ Hay2),
    (int_add_exact _ _ Hbx2), (int_add_exact _ _ Hby2).
  set (ix1 := Z.max (x a) (x b)) in *. set (iy1 := Z.max (y a) (y b)) in *.
  set (ix2 := Z.min (x a + width a) (x b + width b)) in *.
  set (iy2 := Z.min (y a + height a) (y b + height b)) in *.
  destruct (ix1 <? ix2) eqn:Ex; destruct (iy1 <? iy2) eqn:Ey; simpl;
    try apply Z.ltb_lt in Ex; try apply Z.ltb_lt in Ey;
    try apply Z.ltb_ge in Ex; try apply Z.ltb_ge in Ey.
  2-4: split; [intros Hyes; apply Hov in Hyes; lia | intros _; split; reflexivity].
  split; [intros _ | intros Hno; exfalso; apply Hno, Hov; lia].
  assert (Hw : in_int (ix2 - ix1)).
  { unfold in_int, int_min, int_max in *. unfold ix1, ix2 in *. lia. }
  assert (Hh : in_int (iy2 - iy1)).
  { unfold in_int, int_min, int_max in *. unfold iy1, iy2 in *. lia. }
  rewrite (int_sub_exact _ _ Hw), (int_sub_exact _ _ Hh).
  assert (Hi : box_in_range (mk_geometry ix1 iy1 (ix2 - ix1) (iy2 - iy1))).
  { unfold box_in_range, int_geometry, in_int, int_min, int_max in *.
    cbn [x y width height]. unfold ix1, ix2, iy1, iy2 in *. lia. }
  split; [lia |]. split; [lia |].
  split; [unfold contained_in; simpl; unfold ix1, ix2, iy1, iy2; lia |].
  split; [unfold contained_in; simpl; unfold ix1, ix2, iy1, iy2; lia |].
  intros p.
  rewrite (contains_point_iff _ p Hi), (contains_point_iff a p Ha),
    (contains_point_iff b p Hb). simpl.
  unfold ix1, ix2, iy1, iy2. lia.
Qed.

Lemma geometry_intersection_spec_witness :
  box_in_range (mk_geometry 0 0 10 10) /\
  box_in_range (mk_geometry 5 5 10 10) /\
  box_in_range (mk_geometry 10 0 4 4) /\
  overlap (mk_geometry 0 0 10 10) (mk_geometry 5 5 10 10) /\
  ~ overlap (mk_geometry 0 0 10 10) (mk_geometry 10 0 4 4) /\
  0 < width (geometry_intersection (mk_geometry 0 0 10 10) (mk_geometry 5 5 10 10)) /\
  width (geometry_intersection (mk_geometry 0 0 10 10) (mk_geometry 10 0 4 4)) = 0.
Proof.
  assert (Ha : box_in_range (mk_geometry 0 0 10 10)) by int_fields.
  assert (Hb : box_in_range (mk_geometry 5 5 10 10)) by int_fields.
  assert (Hc : box_in_range (mk_geometry 10 0 4 4)) by int_fields.
  assert (Hyes : overlap (mk_geometry 0 0 10 10) (mk_geometry 5 5 10 10)).
  { exists (mk_point 7 7). split; reflexivity. }
  assert (Hno : ~ overlap (mk_geometry 0 0 10 10) (mk_geometry 10 0 4 4)).
  { intros H. apply (overlap_iff _ _ Ha Hc) in H. simpl in H. lia. }
  split; [exact Ha |]. split; [exact Hb |]. split; [exact Hc |].
  split; [exact Hyes |]. split; [exact Hno |].
  split.
  - exact (proj1 (proj1 (geometry_intersection_spec _ _ Ha Hb) Hyes)).
  - exact (proj1 (proj2 (geometry_intersection_spec _ _ Ha Hc) Hno)).
Defined.

(** ** Rounding a floating point *)

Section RoundDown.

Lemma Qtruncate_inject_Z (z : Z) : Qtruncate (inject_Z z) = z.
Proof.
  unfold Qtruncate. destruct (Qle_bool 0 (inject_Z z));
    [apply Qfloor_Z | apply Qceiling_Z].
Qed.

Lemma pow2_pos (k : Z) : 0 <= k -> 0 < 2 ^ k.
Proof. intros Hk. apply Z.pow_pos_nonneg; lia. Qed.

(** The integral part of a negative fraction, by its magnitude. *)
Lemma Qtruncate_neg (m : positive) (D : positive) :
  Qtruncate (Z.neg m # D) = - (Z.pos m / Z.pos D).
Proof.
  unfold Qtruncate, Qle_bool, Qceiling, Qopp, Qfloor. simpl. reflexivity.
Qed.

Lemma Qtruncate_pos (m : positive) (D : positive) :
  Qtruncate (Z.pos m # D) = Z.pos m / Z.pos D.
Proof.
  unfold Qtruncate, Qle_bool, Qfloor. simpl. reflexivity.
Qed.

(** The conversion returns the integral part of the value the double
    denotes, whenever that is an [int]. *)
Lemma static_cast_int_value (f : double) (v : Q) :
  double_value f = Some v -> in_int (Qtruncate v) ->
  static_cast_int f = Some (Qtruncate v).
Proof.
  destruct f as [s | s | | s m e]; unfold double_value, static_cast_int;
    cbv zeta; try discriminate.
  - intros [= <-] _. rewrite Qtruncate_inject_Z. reflexivity.
  - intros [= <-]. destruct (0 <=? e) eqn:He.
    + rewrite Qtruncate_inject_Z. intros Hin.
      assert (Hz : (if s then - (Z.pos m * 2 ^ e) else Z.pos m * 2 ^ e)
                   = (if s then Z.neg m else Z.pos m) * 2 ^ e).
      { destruct s; [rewrite <- Pos2Z.opp_pos; ring | reflexivity]. }
      rewrite Hz. apply in_intb_spec in Hin. rewrite Hin. reflexivity.
    + apply Z.leb_gt in He.
      assert (HD : Z.pos (Z.to_pos (2 ^ (- e))) = 2 ^ (- e)).
      { apply Z2Pos.id. apply pow2_pos. lia. }
      destruct s.
      * rewrite Qtruncate_neg, HD. intros Hin.
        apply in_intb_spec in Hin. rewrite Hin. reflexivity.
      * rewrite Qtruncate_pos, HD. intros Hin.
        apply in_intb_spec in Hin. rewrite Hin. reflexivity.
Qed.

(** Below zero and off the integers, rounding toward zero lands one above
    the floor. *)
Lemma Qtruncate_above_floor (v : Q) :
  (v < 0)%Q -> ~ (v == inject_Z (Qfloor v))%Q -> Qtruncate v = Qfloor v + 1.
Proof.
  intros Hneg Hfrac. unfold Qtruncate.
  destruct (Qle_bool 0 v) eqn:Hsign.
  - apply Qle_bool_iff in Hsign. exfalso.
    exact (Qlt_not_le _ _ Hneg Hsign).
  - pose proof (Qfloor_le v) as Hfl.
    pose proof (Qlt_floor v) as Hlt.
    pose proof (Qle_ceiling v) as Hce.
    pose proof (Qceiling_lt v) as Hcl.
    assert (Hstrict : (inject_Z (Qfloor v) < v)%Q).
    { apply Qle_lteq in Hfl. destruct Hfl as [H | H]; [exact H |].
      exfalso. apply Hfrac. symmetry. exact H. }
    assert (H1 : Qfloor v < Qceiling v).
    { rewrite Zlt_Qlt. exact (Qlt_le_trans _ _ _ Hstrict Hce). }
    assert (H2 : Qceiling v - 1 < Qfloor v + 1).
    { rewrite Zlt_Qlt. exact (Qlt_trans _ _ _ Hcl Hlt). }
    lia.
Qed.

End RoundDown.

(** C10. [round_down] casts each coordinate to [int], which discards the
    fractional part: the result is the coordinate rounded toward zero, not
    its floor.  For a negative coordinate that is no integer the result is
    the floor plus one, so strictly greater than the floor. *)
Theorem round_down_truncates (p : pointf_t) (vx vy : Q) :
  double_value (pf_x p) = Some vx ->
  double_value (pf_y p) = Some vy ->
  in_int (Qtruncate vx) -> in_int (Qtruncate vy) ->
  exists pt : point_t,
    round_down p = Some pt
    /\ px pt = Qtruncate vx /\ py pt = Qtruncate vy
    /\ ((vx < 0)%Q -> ~ (vx == inject_Z (Qfloor vx))%Q ->
        px pt = Qfloor vx + 1 /\ Qfloor vx < px pt)
    /\ ((vy < 0)%Q -> ~ (vy == inject_Z (Qfloor vy))%Q ->
        py pt = Qfloor vy + 1 /\ Qfloor vy < py pt).
Proof.
  intros Hx Hy Hix Hiy.
  exists (mk_point (Qtruncate vx) (Qtruncate vy)).
  split.
  { unfold round_down.
    rewrite (static_cast_int_value _ _ Hx Hix), (static_cast_int_value _ _ Hy Hiy).
    reflexivity. }
  split; [reflexivity |]. split; [reflexivity |].
  simpl. split; intros Hneg Hfrac.
  - rewrite (Qtruncate_above_floor vx Hneg Hfrac). lia.
  - rewrite (Qtruncate_above_floor vy Hneg Hfrac). lia.
Qed.

Lemma round_down_truncates_witness :
  is_double double_minus_2_5 = true /\
  double_value double_minus_2_5 = Some (-5629499534213120 # 2251799813685248)%Q /\
  Qfloor (-5629499534213120 # 2251799813685248)%Q = -3 /\
  round_down (mk_pointf double_minus_2_5 double_minus_2_5) = Some (mk_point (-2) (-2)).
Proof.
  split; [reflexivity |]. split; [reflexivity |]. split; [reflexivity |].
  destruct (round_down_truncates (mk_pointf double_minus_2_5 double_minus_2_5)
              (-5629499534213120 # 2251799813685248)%Q
              (-5629499534213120 # 2251799813685248)%Q eq_refl eq_refl)
    as (pt & Hrd & Hpx & Hpy & _).
  - apply in_intb_spec. reflexivity.
  - apply in_intb_spec. reflexivity.
  - rewrite Hrd. destruct pt as [ptx pty]. simpl in Hpx, Hpy.
    rewrite Hpx, Hpy. reflexivity.
Defined.

(** ** More of the displacement algebra *)

Section MoreBoxAlgebra.

Lemma in_int_0 : in_int 0.
Proof. apply in_intb_spec. reflexivity. Qed.

Lemma select_difference_negate_both (e : Z) (td d : geometry_difference_t) :
  select_difference e (negate td) (negate d) = negate (select_difference e td d).
Proof.
  unfold select_difference, negate. simpl.
  destruct (has_edge e WLR_EDGE_LEFT), (has_edge e WLR_EDGE_RIGHT),
    (has_edge e WLR_EDGE_BOTTOM), (has_edge e WLR_EDGE_TOP); reflexivity.
Qed.

(** The bit a power of two tests. *)
Lemma land_pow2 (e k : Z) :
  0 <= k -> Z.land e (2 ^ k) = if Z.testbit e k then 2 ^ k else 0.
Proof.
  intros Hk. apply Z.bits_inj'. intros n Hn.
  rewrite Z.land_spec, (Z.pow2_bits_eqb k n Hk).
  destruct (Z.eqb_spec k n) as [-> | Hne].
  - destruct (Z.testbit e n) eqn:E; simpl.
    + rewrite Z.pow2_bits_true by exact Hn. reflexivity.
    + rewrite Z.bits_0. reflexivity.
  - rewrite andb_false_r. destruct (Z.testbit e k).
    + rewrite (Z.pow2_bits_false k n) by congruence. reflexivity.
    + rewrite Z.bits_0. reflexivity.
Qed.

Lemma has_edge_pow2 (e k : Z) : 0 <= k -> has_edge e (2 ^ k) = Z.testbit e k.
Proof.
  intros Hk. unfold has_edge. rewrite (land_pow2 e k Hk).
  destruct (Z.testbit e k); [| reflexivity].
  assert (H : 0 < 2 ^ k) by (apply Z.pow_pos_nonneg; lia).
  destruct (Z.eqb_spec (2 ^ k) 0); [lia | reflexivity].
Qed.

Lemma has_edge_testbit (e : Z) :
  has_edge e WLR_EDGE_TOP = Z.testbit e 0
  /\ has_edge e WLR_EDGE_BOTTOM = Z.testbit e 1
  /\ has_edge e WLR_EDGE_LEFT = Z.testbit e 2
  /\ has_edge e WLR_EDGE_RIGHT = Z.testbit e 3.
Proof.
  repeat split.
  - apply (has_edge_pow2 e 0). lia.
  - apply (has_edge_pow2 e 1). lia.
  - apply (has_edge_pow2 e 2). lia.
  - apply (has_edge_pow2 e 3). lia.
Qed.

(** The four tests read the mask and nothing of it but the four edge
    bits. *)
Lemma has_edge_land_all (e : Z) :
  has_edge (Z.land e TILED_EDGES_ALL) WLR_EDGE_TOP = has_edge e WLR_EDGE_TOP
  /\ has_edge (Z.land e TILED_EDGES_ALL) WLR_EDGE_BOTTOM = has_edge e WLR_EDGE_BOTTOM
  /\ has_edge (Z.land e TILED_EDGES_ALL) WLR_EDGE_LEFT = has_edge e WLR_EDGE_LEFT
  /\ has_edge (Z.land e TILED_EDGES_ALL) WLR_EDGE_RIGHT = has_edge e WLR_EDGE_RIGHT.
Proof.
  destruct (has_edge_testbit e) as (-> & -> & -> & ->).
  destruct (has_edge_testbit (Z.land e TILED_EDGES_ALL)) as (-> & -> & -> & ->).
  rewrite !Z.land_spec. change TILED_EDGES_ALL with 15.
  repeat split; apply andb_true_r.
Qed.

Lemma has_edge_lxor_all (e : Z) :
  has_edge (Z.lxor e TILED_EDGES_ALL) WLR_EDGE_TOP = negb (has_edge e WLR_EDGE_TOP)
  /\ has_edge (Z.lxor e TILED_EDGES_ALL) WLR_EDGE_BOTTOM = negb (has_edge e WLR_EDGE_BOTTOM)
  /\ has_edge (Z.lxor e TILED_EDGES_ALL) WLR_EDGE_LEFT = negb (has_edge e WLR_EDGE_LEFT)
  /\ has_edge (Z.lxor e TILED_EDGES_ALL) WLR_EDGE_RIGHT = negb (has_edge e WLR_EDGE_RIGHT).
Proof.
  destruct (has_edge_testbit e) as (-> & -> & -> & ->).
  destruct (has_edge_testbit (Z.lxor e TILED_EDGES_ALL)) as (-> & -> & -> & ->).
  rewrite !Z.lxor_spec. change TILED_EDGES_ALL with 15.
  repeat split; apply xorb_true_r.
Qed.

End MoreBoxAlgebra.

(** X1. Subtracting a displacement from a box undoes adding it, and adding
    it undoes subtracting it. *)
Theorem box_sub_difference_inverse (g : geometry_t) (m : geometry_difference_t) :
  int_geometry g ->
  box_sub_difference (box_add g m) m = g /\ box_add (box_sub_difference g m) m = g.
Proof.
  destruct g as [gx gy gw gh]. intros (Hx & Hy & Hw & Hh). simpl in *.
  unfold box_sub_difference, box_add. simpl.
  split; f_equal; first [wrap_ring Hx | wrap_ring Hy | wrap_ring Hw | wrap_ring Hh].
Qed.

Lemma box_sub_difference_inverse_witness :
  int_geometry (mk_geometry 2147483647 (-2147483648) 5 7) /\
  box_sub_difference
    (box_add (mk_geometry 2147483647 (-2147483648) 5 7) (mk_difference (-3) 4 5 6))
    (mk_difference (-3) 4 5 6)
  = mk_geometry 2147483647 (-2147483648) 5 7.
Proof.
  split; [int_fields |].
  apply (box_sub_difference_inverse (mk_geometry 2147483647 (-2147483648) 5 7)
           (mk_difference (-3) 4 5 6)).
  int_fields.
Defined.

(** X2. Subtracting a displacement from a box is adding the negated
    displacement. *)
Theorem box_sub_difference_is_add_negate (g : geometry_t) (m : geometry_difference_t) :
  box_sub_difference g m = box_add g (negate m).
Proof. unfold box_sub_difference, box_add, negate. simpl. f_equal; wrap_eq. Qed.

(** X3. The displacement from a box to that box plus [d] is [d]. *)
Theorem box_subtract_box_add (g : geometry_t) (d : geometry_difference_t) :
  int_difference d -> box_subtract (box_add g d) g = d.
Proof.
  destruct d as [l r b t]. intros (Hl & Hr & Hb & Ht). simpl in *.
  unfold box_subtract, box_add. simpl.
  f_equal; [wrap_ring Hl | wrap_ring Hr | wrap_ring Hb | wrap_ring Ht].
Qed.

Lemma box_subtract_box_add_witness :
  int_difference (mk_difference 10 (-2147483648) 2147483647 (-4)) /\
  box_subtract
    (box_add (mk_geometry 1 2 3 4) (mk_difference 10 (-2147483648) 2147483647 (-4)))
    (mk_geometry 1 2 3 4)
  = mk_difference 10 (-2147483648) 2147483647 (-4).
Proof.
  split; [int_fields |].
  apply (box_subtract_box_add (mk_geometry 1 2 3 4)
           (mk_difference 10 (-2147483648) 2147483647 (-4))).
  int_fields.
Defined.

(** X4. The displacement from a box to itself is zero, and the displacement
    from [b] to [a] is the negated displacement from [a] to [b]. *)
Theorem box_subtract_self_and_swap (a b : geometry_t) :
  box_subtract a a = zero_difference
  /\ box_subtract a b = negate (box_subtract b a).
Proof.
  unfold box_subtract, negate, zero_difference. simpl. split.
  - f_equal; wrap_ring in_int_0.
  - f_equal; wrap_eq.
Qed.

(** X5. Two displacements can be added to a box in either order. *)
Theorem box_add_commutes (g : geometry_t) (d1 d2 : geometry_difference_t) :
  box_add (box_add g d1) d2 = box_add (box_add g d2) d1.
Proof. unfold box_add. simpl. f_equal; wrap_eq. Qed.

(** X6. Adding a displacement moves every edge outward by the amount given
    for that edge: the left edge by [left], the top edge by [top], the right
    edge by [right], the bottom edge by [bottom]. *)
Theorem box_add_corners (g : geometry_t) (m : geometry_difference_t) :
  rectangle_of_geometry (box_add g m) =
  mk_rectangle
    (int_sub (x1 (rectangle_of_geometry g)) (left m))
    (int_sub (y1 (rectangle_of_geometry g)) (top m))
    (int_add (x2 (rectangle_of_geometry g)) (right m))
    (int_add (y2 (rectangle_of_geometry g)) (bottom m)).
Proof. unfold rectangle_of_geometry, box_add. simpl. f_equal; wrap_eq. Qed.

(** X7. [expand_geometry_if] and [geometry_switch_if] look at the four edge
    bits of the mask and at no other bit. *)
Theorem edge_mask_only_four_bits (e : Z) (g : geometry_t)
    (td d : geometry_difference_t) (g1 g0 : rectangle_t) :
  expand_geometry_if g (Z.land e TILED_EDGES_ALL) td d = expand_geometry_if g e td d
  /\ geometry_switch_if (Z.land e TILED_EDGES_ALL) g1 g0 = geometry_switch_if e g1 g0.
Proof.
  unfold expand_geometry_if, geometry_switch_if.
  destruct (has_edge_land_all e) as (-> & -> & -> & ->).
  split; reflexivity.
Qed.

(** X8. With no edge bit set [expand_geometry_if] adds [delta] to the box;
    with all four edge bits set it adds [tiled_edge_delta]. *)
Theorem expand_geometry_if_no_edge_all_edges (g : geometry_t) (e : Z)
    (td d : geometry_difference_t) :
  Z.land e TILED_EDGES_ALL = TILED_EDGES_ALL ->
  expand_geometry_if g 0 td d = box_add g d
  /\ expand_geometry_if g e td d = box_add g td.
Proof.
  intros He. rewrite !expand_geometry_if_box_add. split.
  - destruct d; reflexivity.
  - unfold select_difference.
    destruct (has_edge_land_all e) as (Ht & Hb & Hl & Hr).
    rewrite <- Ht, <- Hb, <- Hl, <- Hr, He. destruct td; reflexivity.
Qed.

Lemma expand_geometry_if_no_edge_all_edges_witness :
  Z.land 31 TILED_EDGES_ALL = TILED_EDGES_ALL /\
  expand_geometry_if (mk_geometry 0 0 200 100) 0
    (mk_difference 1 2 3 4) (mk_difference 10 20 30 40)
    = mk_geometry (-10) (-40) 230 170 /\
  expand_geometry_if (mk_geometry 0 0 200 100) 31
    (mk_difference 1 2 3 4) (mk_difference 10 20 30 40)
    = mk_geometry (-1) (-4) 203 107.
Proof.
  split; [reflexivity |].
  destruct (expand_geometry_if_no_edge_all_edges (mk_geometry 0 0 200 100) 31
              (mk_difference 1 2 3 4) (mk_difference 10 20 30 40) eq_refl)
    as [Hnone Hall].
  split; [rewrite Hnone | rewrite Hall]; reflexivity.
Defined.

(** X9. Expanding under a mask with two displacements and then under the
    same mask with both displacements negated gives the box back. *)
Theorem expand_geometry_if_inverse (g : geometry_t) (e : Z)
    (td d : geometry_difference_t) :
  int_geometry g ->
  expand_geometry_if (expand_geometry_if g e td d) e (negate td) (negate d) = g.
Proof.
  intros Hg.
  rewrite !expand_geometry_if_box_add, select_difference_negate_both.
  apply box_add_negate. exact Hg.
Qed.

Lemma expand_geometry_if_inverse_witness :
  int_geometry (mk_geometry 5 6 70 80) /\
  expand_geometry_if
    (expand_geometry_if (mk_geometry 5 6 70 80) WLR_EDGE_LEFT
       (mk_difference 1 2 3 4) (mk_difference 10 20 30 40))
    WLR_EDGE_LEFT
    (negate (mk_difference 1 2 3 4)) (negate (mk_difference 10 20 30 40))
  = mk_geometry 5 6 70 80.
Proof.
  split; [int_fields |].
  apply (expand_geometry_if_inverse (mk_geometry 5 6 70 80) WLR_EDGE_LEFT
           (mk_difference 1 2 3 4) (mk_difference 10 20 30 40)).
  int_fields.
Defined.

(** X10. [expand_geometry_if] is [geometry_switch_if] between the box
    expanded by [tiled_edge_delta] and the box expanded by [delta]. *)
Theorem expand_geometry_if_is_switch (g : geometry_t) (e : Z)
    (td d : geometry_difference_t) :
  expand_geometry_if g e td d =
  geometry_of_rectangle
    (geometry_switch_if e (rectangle_of_geometry (box_add g td))
                          (rectangle_of_geometry (box_add g d))).
Proof.
  unfold expand_geometry_if, geometry_switch_if.
  rewrite !box_add_corners. cbn [x1 y1 x2 y2]. cbv zeta.
  destruct (has_edge e WLR_EDGE_LEFT), (has_edge e WLR_EDGE_TOP),
    (has_edge e WLR_EDGE_RIGHT), (has_edge e WLR_EDGE_BOTTOM); reflexivity.
Qed.

(** X11. Complementing the four edge bits of the mask swaps the roles of
    the two rectangles of [geometry_switch_if], and switching between a
    rectangle and itself gives that rectangle. *)
Theorem geometry_switch_if_complement (e : Z) (g1 g0 : rectangle_t) :
  geometry_switch_if (Z.lxor e TILED_EDGES_ALL) g1 g0 = geometry_switch_if e g0 g1
  /\ geometry_switch_if e g1 g1 = g1.
Proof.
  unfold geometry_switch_if.
  destruct (has_edge_lxor_all e) as (-> & -> & -> & ->).
  destruct g1 as [a1 b1 c1 d1].
  destruct (has_edge e WLR_EDGE_LEFT), (has_edge e WLR_EDGE_TOP),
    (has_edge e WLR_EDGE_RIGHT), (has_edge e WLR_EDGE_BOTTOM);
    split; reflexivity.
Qed.

(** ** [clamp] *)

(** X12. With [min <= max], [clamp] returns a value of the interval
    [[min, max]], the value itself when it lies in the interval, and no
    value of the interval is closer to [value] than the result.  With
    [max < min] it returns [max] whatever the value. *)
Theorem clamp_closest (value min max : Z) :
  (min <= max ->
     min <= clamp value min max <= max
     /\ (min <= value <= max -> clamp value min max = value)
     /\ forall w : Z, min <= w <= max ->
          Z.abs (clamp value min max - value) <= Z.abs (w - value))
  /\ (max < min -> clamp value min max = max).
Proof. unfold clamp. split; intros H; [repeat split; intros |]; lia. Qed.

Lemma clamp_closest_witness :
  clamp 50 0 10 = 10 /\ clamp (-3) 0 10 = 0 /\ clamp 7 0 10 = 7 /\ clamp 7 10 0 = 0.
Proof.
  assert (H1 : 0 <= 10) by lia. assert (H2 : 0 < 10) by lia.
  split; [reflexivity |]. split; [reflexivity |].
  split.
  - apply (proj1 (proj2 (proj1 (clamp_closest 7 0 10) H1))). lia.
  - apply (proj2 (clamp_closest 7 10 0) H2).
Defined.

(** ** Margins on dimensions *)

(** X13. [shrink_dimensions_by_margins] and [expand_dimensions_by_margins]
    with the same margins undo each other. *)
Theorem dimensions_by_margins_inverse (dim : dimensions_t)
    (margins : geometry_difference_t) :
  in_int (dim_width dim) -> in_int (dim_height dim) ->
  shrink_dimensions_by_margins (expand_dimensions_by_margins dim margins) margins = dim
  /\ expand_dimensions_by_margins (shrink_dimensions_by_margins dim margins) margins = dim.
Proof.
  destruct dim as [w h]. simpl. intros Hw Hh.
  unfold shrink_dimensions_by_margins, expand_dimensions_by_margins. simpl.
  split; f_equal; first [wrap_ring Hw | wrap_ring Hh].
Qed.

Lemma dimensions_by_margins_inverse_witness :
  in_int 640 /\ in_int 480 /\
  shrink_dimensions_by_margins
    (expand_dimensions_by_margins (mk_dimensions 640 480) (mk_difference 4 4 4 30))
    (mk_difference 4 4 4 30)
  = mk_dimensions 640 480.
Proof.
  split; [int_fields |]. split; [int_fields |].
  apply (dimensions_by_margins_inverse (mk_dimensions 640 480)
           (mk_difference 4 4 4 30)); int_fields.
Defined.

(** X14. The size of a box after a displacement is added is the size
    [expand_dimensions_by_margins] computes, and after it is subtracted the
    size [shrink_dimensions_by_margins] computes. *)
Theorem box_size_by_margins (g : geometry_t) (m : geometry_difference_t) :
  mk_dimensions (width (box_add g m)) (height (box_add g m))
    = expand_dimensions_by_margins (mk_dimensions (width g) (height g)) m
  /\ mk_dimensions (width (box_sub_difference g m)) (height (box_sub_difference g m))
    = shrink_dimensions_by_margins (mk_dimensions (width g) (height g)) m.
Proof.
  unfold box_add, box_sub_difference, expand_dimensions_by_margins,
    shrink_dimensions_by_margins. simpl.
  split; f_equal; wrap_eq.
Qed.

(** ** The name of an edge mask *)

Section EdgeNames.

(** Masking a [uint32_t] with a complement clears the bits of the
    complemented mask. *)
Lemma land_uint32_not (e m : Z) :
  in_uint32 e -> Z.land e (uint32_not m) = Z.ldiff e m.
Proof.
  intros He. unfold uint32_not, in_uint32 in *. change modulus with (2 ^ 32) in *.
  apply Z.bits_inj'. intros n Hn.
  rewrite Z.land_spec, Z.ldiff_spec.
  destruct (Z.ltb_spec n 32) as [Hlt | Hge].
  - rewrite Z.mod_pow2_bits_low by exact Hlt.
    rewrite Z.lnot_spec by exact Hn. reflexivity.
  - assert (Hhigh : Z.testbit e n = false).
    { rewrite <- (Z.mod_small e (2 ^ 32)) by exact He.
      apply Z.mod_pow2_bits_high. lia. }
    rewrite Hhigh. reflexivity.
Qed.

Lemma has_edge_beyond_all (e : Z) :
  in_uint32 e -> has_edge e (uint32_not TILED_EDGES_ALL) = (16 <=? e).
Proof.
  intros He. unfold has_edge. rewrite (land_uint32_not e _ He).
  change TILED_EDGES_ALL with (Z.ones 4).
  rewrite Z.ldiff_ones_r by lia.
  rewrite Z.shiftl_mul_pow2, Z.shiftr_div_pow2 by lia.
  change (2 ^ 4) with 16. unfold in_uint32 in He.
  destruct (Z.leb_spec 16 e) as [Hge | Hlt].
  - assert (1 <= e / 16) by (apply Z.div_le_lower_bound; lia).
    destruct (Z.eqb_spec (e / 16 * 16) 0); [lia | reflexivity].
  - rewrite Z.div_small by lia. reflexivity.
Qed.

Lemma legal_mask_cases (e : Z) :
  0 <= e < 16 ->
  e = 0 \/ e = 1 \/ e = 2 \/ e = 3 \/ e = 4 \/ e = 5 \/ e = 6 \/ e = 7 \/
  e = 8 \/ e = 9 \/ e = 10 \/ e = 11 \/ e = 12 \/ e = 13 \/ e = 14 \/ e = 15.
Proof. lia. Qed.

Lemma tiled_edges_to_string_beyond (e : Z) :
  in_uint32 e -> 16 <= e ->
  tiled_edges_to_string e = "Illegal tiled_edges!"%string.
Proof.
  intros He Hge. unfold tiled_edges_to_string.
  destruct (Z.eqb_spec e 0); [lia |].
  rewrite (has_edge_beyond_all e He).
  destruct (Z.leb_spec 16 e); [reflexivity | lia].
Qed.

Lemma tiled_edges_to_string_legal (e : Z) :
  0 <= e < 16 ->
  tiled_edges_to_string e <> ""%string
  /\ tiled_edges_to_string e <> "Illegal tiled_edges!"%string.
Proof.
  intros He. apply legal_mask_cases in He.
  repeat (destruct He as [-> | He]); try subst e;
    split; vm_compute; discriminate.
Qed.

Lemma tiled_edges_to_string_legal_inj (a b : Z) :
  0 <= a < 16 -> 0 <= b < 16 ->
  tiled_edges_to_string a = tiled_edges_to_string b -> a = b.
Proof.
  intros Ha Hb. apply legal_mask_cases in Ha. apply legal_mask_cases in Hb.
  repeat (destruct Ha as [-> | Ha]); try subst a;
    repeat (destruct Hb as [-> | Hb]); try subst b;
    intros H; first [reflexivity | vm_compute in H; discriminate H].
Qed.

End EdgeNames.

(** X15. For every [uint32_t] mask [tiled_edges_to_string] returns a
    string that is not empty, and it returns "Illegal tiled_edges!" exactly
    for the masks with a bit set beyond the four edge bits, that is from 16
    on. *)
Theorem tiled_edges_to_string_never_empty (e : Z) :
  in_uint32 e ->
  tiled_edges_to_string e <> ""%string
  /\ (tiled_edges_to_string e = "Illegal tiled_edges!"%string <-> 16 <= e).
Proof.
  intros He. destruct (Z.le_gt_cases 16 e) as [Hge | Hlt].
  - rewrite (tiled_edges_to_string_beyond e He Hge).
    split; [discriminate | split; auto].
  - assert (Hlegal : 0 <= e < 16) by (unfold in_uint32 in He; lia).
    destruct (tiled_edges_to_string_legal e Hlegal) as [Hne Hill].
    split; [exact Hne |]. split; [intros H; contradiction | lia].
Qed.

Lemma tiled_edges_to_string_never_empty_witness :
  in_uint32 4294967295 /\ in_uint32 5 /\
  tiled_edges_to_string 4294967295 = "Illegal tiled_edges!"%string /\
  tiled_edges_to_string 5 <> ""%string.
Proof.
  assert (H1 : in_uint32 4294967295) by (unfold in_uint32, modulus; lia).
  assert (H2 : in_uint32 5) by (unfold in_uint32, modulus; lia).
  split; [exact H1 |]. split; [exact H2 |]. split.
  - apply (proj2 (tiled_edges_to_string_never_empty 4294967295 H1)). lia.
  - exact (proj1 (tiled_edges_to_string_never_empty 5 H2)).
Defined.

(** X16. Two [uint32_t] masks with the same name are the same mask, unless
    both are illegal: the name of a legal mask tells which edges are set. *)
Theorem tiled_edges_to_string_injective (a b : Z) :
  in_uint32 a -> in_uint32 b ->
  tiled_edges_to_string a = tiled_edges_to_string b ->
  a = b \/ (16 <= a /\ 16 <= b).
Proof.
  intros Ha Hb Hab.
  destruct (Z.le_gt_cases 16 a) as [Hage | Halt];
    destruct (Z.le_gt_cases 16 b) as [Hbge | Hblt].
  - right. split; assumption.
  - exfalso. rewrite (tiled_edges_to_string_beyond a Ha Hage) in Hab.
    assert (Hlegal : 0 <= b < 16) by (unfold in_uint32 in Hb; lia).
    destruct (tiled_edges_to_string_legal b Hlegal) as [_ Hill].
    apply Hill. symmetry. exact Hab.
  - exfalso. rewrite (tiled_edges_to_string_beyond b Hb Hbge) in Hab.
    assert (Hlegal : 0 <= a < 16) by (unfold in_uint32 in Ha; lia).
    destruct (tiled_edges_to_string_legal a Hlegal) as [_ Hill].
    apply Hill. exact Hab.
  - left. apply tiled_edges_to_string_legal_inj;
      [unfold in_uint32 in Ha; lia | unfold in_uint32 in Hb; lia | exact Hab].
Qed.

Lemma tiled_edges_to_string_injective_witness :
  in_uint32 6 /\
  tiled_edges_to_string 6 = tiled_edges_to_string (Z.lor WLR_EDGE_BOTTOM WLR_EDGE_LEFT) /\
  (6 = Z.lor WLR_EDGE_BOTTOM WLR_EDGE_LEFT \/
   (16 <= 6 /\ 16 <= Z.lor WLR_EDGE_BOTTOM WLR_EDGE_LEFT)).
Proof.
  assert (H : in_uint32 6) by (unfold in_uint32, modulus; lia).
  split; [exact H |]. split; [reflexivity |].
  apply (tiled_edges_to_string_injective 6 (Z.lor WLR_EDGE_BOTTOM WLR_EDGE_LEFT) H H).
  reflexivity.
Defined.

(** ** Floating points *)

Section Doubles.

Lemma double_neg_involutive (a : double) : double_neg (double_neg a) = a.
Proof. destruct a; simpl; rewrite ?negb_involutive; reflexivity. Qed.

Lemma double_sub_add_neg (a b : double) :
  double_sub a b = double_add a (double_neg b).
Proof.
  unfold double_sub, double_add, double_neg.
  destruct a as [sa | sa | | sa ma ea], b as [sb | sb | | sb mb eb];
    try reflexivity; destruct sa, sb; reflexivity.
Qed.

Lemma double_add_comm (a b : double) : double_add a b = double_add b a.
Proof.
  unfold double_add.
  destruct a as [sa | sa | | sa ma ea], b as [sb | sb | | sb mb eb];
    try reflexivity; try (destruct sa, sb; reflexivity).
  unfold SFadd. rewrite (Z.min_comm eb ea), Z.add_comm. reflexivity.
Qed.

(** Appending [k] zero bits multiplies by [2 ^ k] and adds [k] digits. *)
Lemma iter_xO_value (m k : positive) :
  Z.pos (Pos.iter xO m k) = Z.pos m * 2 ^ Z.pos k.
Proof.
  induction k as [| k IH] using Pos.peano_ind.
  - simpl. lia.
  - rewrite Pos.iter_succ, Pos2Z.inj_xO, IH, Pos2Z.inj_succ, Z.pow_succ_r by lia.
    ring.
Qed.

Lemma iter_xO_digits (m k : positive) :
  digits2_pos (Pos.iter xO m k) = (digits2_pos m + k)%positive.
Proof.
  induction k as [| k IH] using Pos.peano_ind.
  - simpl. lia.
  - rewrite Pos.iter_succ. simpl. rewrite IH. lia.
Qed.

Lemma digits2_pos_lower (m : positive) : 2 ^ (Z.pos (digits2_pos m) - 1) <= Z.pos m.
Proof.
  induction m as [m IH | m IH |]; simpl digits2_pos.
  - rewrite Pos2Z.inj_succ.
    replace (Z.succ (Z.pos (digits2_pos m)) - 1)
      with (Z.succ (Z.pos (digits2_pos m) - 1)) by lia.
    rewrite Z.pow_succ_r by lia.
    generalize dependent (2 ^ (Z.pos (digits2_pos m) - 1)). intros; lia.
  - rewrite Pos2Z.inj_succ.
    replace (Z.succ (Z.pos (digits2_pos m)) - 1)
      with (Z.succ (Z.pos (digits2_pos m) - 1)) by lia.
    rewrite Z.pow_succ_r by lia.
    generalize dependent (2 ^ (Z.pos (digits2_pos m) - 1)). intros; lia.
  - simpl. lia.
Qed.

(** The magnitude of an [int] has at most 32 binary digits. *)
Lemma digits2_pos_int (m : positive) :
  Z.pos m <= half_modulus -> (digits2_pos m <= 32)%positive.
Proof.
  intros Hm. pose proof (digits2_pos_lower m) as Hlow.
  unfold half_modulus in Hm.
  assert (H : 2 ^ (Z.pos (digits2_pos m) - 1) <= 2 ^ 31) by lia.
  apply Z.pow_le_mono_r_iff in H; lia.
Qed.

(** Rounding the magnitude of an [int] to binary64 only shifts it to 53
    digits: nothing is rounded away. *)
Lemma binary_round_int (s : bool) (m : positive) :
  Z.pos m <= half_modulus ->
  binary_round 53 1024 s m 0 =
  S754_finite s (Pos.iter xO m (53 - digits2_pos m))
    (Z.pos (digits2_pos m) - 53).
Proof.
  intros Hm. pose proof (digits2_pos_int m Hm) as Hd.
  unfold binary_round.
  assert (Hfexp : fexp 53 1024 (Z.pos (digits2_pos m) + 0) = Z.pos (digits2_pos m) - 53).
  { unfold fexp, emin. lia. }
  rewrite Hfexp. unfold shl_align.
  replace (Z.pos (digits2_pos m) - 53 - 0) with (Z.neg (53 - digits2_pos m)) by lia.
  cbv iota beta.
  set (mz := Pos.iter xO m (53 - digits2_pos m)).
  set (e' := Z.pos (digits2_pos m) - 53).
  assert (Hshift : fexp 53 1024 (Zdigits2 (Z.pos mz) + e') - e' = 0).
  { unfold Zdigits2, mz, e'. rewrite iter_xO_digits. unfold fexp, emin. lia. }
  unfold binary_round_aux, shr_fexp.
  cbn [shr_record_of_loc]. rewrite Hshift.
  cbn [shr shr_m loc_of_shr_record round_nearest_even].
  rewrite Hshift. cbn [shr shr_m].
  destruct (Z.leb_spec e' (1024 - 53)); [reflexivity | unfold e' in *; lia].
Qed.

Lemma static_cast_int_shifted (s : bool) (m : positive) :
  Z.pos m <= half_modulus ->
  in_int (if s then Z.neg m else Z.pos m) ->
  static_cast_int
    (S754_finite s (Pos.iter xO m (53 - digits2_pos m)) (Z.pos (digits2_pos m) - 53))
  = Some (if s then Z.neg m else Z.pos m).
Proof.
  intros Hm Hin. pose proof (digits2_pos_int m Hm) as Hd.
  unfold static_cast_int.
  destruct (Z.leb_spec 0 (Z.pos (digits2_pos m) - 53)) as [Hge | Hlt]; [lia |].
  rewrite iter_xO_value.
  replace (- (Z.pos (digits2_pos m) - 53)) with (Z.pos (53 - digits2_pos m)) by lia.
  rewrite Z.div_mul by (apply Z.pow_nonzero; lia).
  replace (if s then - Z.pos m else Z.pos m) with (if s then Z.neg m else Z.pos m)
    by (destruct s; reflexivity).
  apply in_intb_spec in Hin. rewrite Hin. reflexivity.
Qed.

Lemma double_of_int_exact (z : Z) :
  in_int z -> static_cast_int (double_of_int z) = Some z.
Proof.
  intros Hz. unfold double_of_int, binary_normalize.
  assert (Hrange : - half_modulus <= z <= half_modulus).
  { unfold in_int, int_min, int_max in Hz. lia. }
  destruct z as [| m | m].
  - reflexivity.
  - rewrite binary_round_int by lia.
    apply (static_cast_int_shifted false m); [lia | exact Hz].
  - rewrite binary_round_int by lia.
    apply (static_cast_int_shifted true m); [lia | exact Hz].
Qed.

Lemma double_of_int_valid (z : Z) : in_int z -> is_double (double_of_int z) = true.
Proof.
  intros Hz. unfold double_of_int, binary_normalize, is_double.
  assert (Hrange : - half_modulus <= z <= half_modulus).
  { unfold in_int, int_min, int_max in Hz. lia. }
  assert (Hfin : forall (s : bool) (m : positive), Z.pos m <= half_modulus ->
            valid_binary 53 1024
              (S754_finite s (Pos.iter xO m (53 - digits2_pos m))
                 (Z.pos (digits2_pos m) - 53)) = true).
  { intros s m Hm. pose proof (digits2_pos_int m Hm) as Hd.
    unfold valid_binary, bounded, canonical_mantissa.
    rewrite iter_xO_digits. apply andb_true_iff. split.
    - apply Z.eqb_eq. unfold fexp, emin. lia.
    - apply Z.leb_le. lia. }
  destruct z as [| m | m].
  - reflexivity.
  - rewrite binary_round_int by lia. apply Hfin. lia.
  - rewrite binary_round_int by lia. apply Hfin. lia.
Qed.

End Doubles.

(** X17. Negating a floating point twice gives the point back, and
    subtracting a point is adding its negation. *)
Theorem pointf_neg_and_sub (p q : pointf_t) :
  pointf_neg (pointf_neg p) = p /\ pointf_sub p q = pointf_add p (pointf_neg q).
Proof.
  destruct p as [a b], q as [c d]. unfold pointf_neg, pointf_sub, pointf_add. simpl.
  rewrite !double_neg_involutive, !double_sub_add_neg. split; reflexivity.
Qed.

(** X18. The sum of two floating points does not depend on their order. *)
Theorem pointf_add_comm (p q : pointf_t) : pointf_add p q = pointf_add q p.
Proof.
  unfold pointf_add.
  rewrite (double_add_comm (pf_x p)), (double_add_comm (pf_y p)). reflexivity.
Qed.

(** X19. An integer point turned into a floating point and rounded down
    again is the integer point it was; both coordinates of the floating
    point are binary64 values. *)
Theorem round_down_pointf_of_point (pt : point_t) :
  in_int (px pt) -> in_int (py pt) ->
  round_down (pointf_of_point pt) = Some pt
  /\ is_double (pf_x (pointf_of_point pt)) = true
  /\ is_double (pf_y (pointf_of_point pt)) = true.
Proof.
  destruct pt as [a b]. simpl. intros Ha Hb. split.
  - unfold round_down, pointf_of_point. simpl.
    rewrite (double_of_int_exact a Ha), (double_of_int_exact b Hb). reflexivity.
  - split; apply double_of_int_valid; assumption.
Qed.

Lemma round_down_pointf_of_point_witness :
  in_int (-2147483648) /\ in_int 2147483647 /\
  round_down (pointf_of_point (mk_point (-2147483648) 2147483647))
    = Some (mk_point (-2147483648) 2147483647).
Proof.
  assert (H1 : in_int (-2147483648)) by (apply in_intb_spec; reflexivity).
  assert (H2 : in_int 2147483647) by (apply in_intb_spec; reflexivity).
  split; [exact H1 |]. split; [exact H2 |].
  exact (proj1 (round_down_pointf_of_point (mk_point (-2147483648) 2147483647) H1 H2)).
Defined.

Section TowardZero.

Lemma Qtruncate_nonneg (v : Q) :
  (0 <= v)%Q -> Qtruncate v = Qfloor v /\ 0 <= Qfloor v.
Proof.
  intros Hv. unfold Qtruncate.
  rewrite (proj2 (Qle_bool_iff 0 v) Hv). split; [reflexivity |].
  apply (Qfloor_resp_le 0 v Hv).
Qed.

Lemma Qtruncate_nonpos (v : Q) :
  (v <= 0)%Q -> (v <= inject_Z (Qtruncate v))%Q /\ Qtruncate v <= 0.
Proof.
  intros Hv. unfold Qtruncate. destruct (Qle_bool 0 v) eqn:Hsign.
  - apply Qle_bool_iff in Hsign.
    assert (Hzero : (v == 0)%Q) by (apply Qle_antisym; assumption).
    rewrite (Qfloor_comp v 0 Hzero). split; [exact Hv | apply Z.le_refl].
  - split; [apply Qle_ceiling | apply (Qceiling_resp_le v 0 Hv)].
Qed.

End TowardZero.

(** X20. [round_down] rounds toward zero: a non-negative coordinate is
    rounded down to its floor, a coordinate that is not positive is rounded
    up, to a result between the coordinate and zero. *)
Theorem round_down_toward_zero (p : pointf_t) (vx vy : Q) :
  double_value (pf_x p) = Some vx ->
  double_value (pf_y p) = Some vy ->
  in_int (Qtruncate vx) -> in_int (Qtruncate vy) ->
  exists pt : point_t,
    round_down p = Some pt
    /\ ((0 <= vx)%Q -> px pt = Qfloor vx /\ 0 <= px pt)
    /\ ((0 <= vy)%Q -> py pt = Qfloor vy /\ 0 <= py pt)
    /\ ((vx <= 0)%Q -> (vx <= inject_Z (px pt))%Q /\ px pt <= 0)
    /\ ((vy <= 0)%Q -> (vy <= inject_Z (py pt))%Q /\ py pt <= 0).
Proof.
  intros Hx Hy Hix Hiy.
  exists (mk_point (Qtruncate vx) (Qtruncate vy)). simpl.
  split.
  { unfold round_down.
    rewrite (static_cast_int_value _ _ Hx Hix), (static_cast_int_value _ _ Hy Hiy).
    reflexivity. }
  split; [intros H; destruct (Qtruncate_nonneg vx H) as [-> H0]; auto |].
  split; [intros H; destruct (Qtruncate_nonneg vy H) as [-> H0]; auto |].
  split; [apply Qtruncate_nonpos | apply Qtruncate_nonpos].
Qed.

Lemma round_down_toward_zero_witness :
  exists pt : point_t,
    round_down (mk_pointf (S754_finite false 7 (-1)) double_minus_2_5) = Some pt
    /\ px pt = 3 /\ py pt <= 0.
Proof.
  destruct (round_down_toward_zero
              (mk_pointf (S754_finite false 7 (-1)) double_minus_2_5)
              (7 # 2)%Q (-5629499534213120 # 2251799813685248)%Q eq_refl eq_refl)
    as (pt & Hrd & Hx & _ & _ & Hy).
  - apply in_intb_spec. reflexivity.
  - apply in_intb_spec. reflexivity.
  - exists pt. split; [exact Hrd |]. split.
    + assert (H : (0 <= 7 # 2)%Q) by (apply Qle_bool_iff; reflexivity).
      destruct (Hx H) as [Hfloor _]. rewrite Hfloor. reflexivity.
    + assert (H : (-5629499534213120 # 2251799813685248 <= 0)%Q)
        by (apply Qle_bool_iff; reflexivity).
      exact (proj2 (Hy H)).
Defined.

(** ** Displacements without overflow *)

(** X21. Whenever the four fields of the result fit an [int], [box_add]
    computes them exactly, [x - left], [y - top], [width + left + right],
    [height + top + bottom], even if a partial sum overflows on the way. *)
Theorem box_add_exact (g : geometry_t) (m : geometry_difference_t) :
  in_int (x g - left m) -> in_int (y g - top m) ->
  in_int (width g + left m + right m) -> in_int (height g + top m + bottom m) ->
  box_add g m =
  mk_geometry (x g - left m) (y g - top m)
    (width g + left m + right m) (height g + top m + bottom m).
Proof.
  intros Hx Hy Hw Hh. unfold box_add.
  f_equal; [wrap_ring Hx | wrap_ring Hy | wrap_ring Hw | wrap_ring Hh].
Qed.

Lemma box_add_exact_witness :
  in_int (0 - 10) /\ in_int (0 - 5) /\
  in_int (2147483647 + 10 + -20) /\ in_int (100 + 5 + 5) /\
  box_add (mk_geometry 0 0 2147483647 100) (mk_difference 10 (-20) 5 5)
    = mk_geometry (-10) (-5) 2147483637 110.
Proof.
  assert (H1 : in_int (0 - 10)) by (apply in_intb_spec; reflexivity).
  assert (H2 : in_int (0 - 5)) by (apply in_intb_spec; reflexivity).
  assert (H3 : in_int (2147483647 + 10 + -20)) by (apply in_intb_spec; reflexivity).
  assert (H4 : in_int (100 + 5 + 5)) by (apply in_intb_spec; reflexivity).
  split; [exact H1 |]. split; [exact H2 |]. split; [exact H3 |]. split; [exact H4 |].
  exact (box_add_exact (mk_geometry 0 0 2147483647 100) (mk_difference 10 (-20) 5 5)
           H1 H2 H3 H4).
Defined.

(** X22. Adding a displacement with no negative field grows the box: as
    long as the result's fields fit an [int], the result contains the box
    it came from, and its width and height are at least those of the
    box. *)
Theorem box_add_grows (g : geometry_t) (m : geometry_difference_t) :
  0 <= left m -> 0 <= right m -> 0 <= bottom m -> 0 <= top m ->
  in_int (x g - left m) -> in_int (y g - top m) ->
  in_int (width g + left m + right m) -> in_int (height g + top m + bottom m) ->
  contained_in g (box_add g m)
  /\ width g <= width (box_add g m) /\ height g <= height (box_add g m).
Proof.
  intros Hl Hr Hb Ht Hx Hy Hw Hh.
  rewrite (box_add_exact g m Hx Hy Hw Hh).
  unfold contained_in. simpl. lia.
Qed.

Lemma box_add_grows_witness :
  contained_in (mk_geometry 0 0 200 100)
    (box_add (mk_geometry 0 0 200 100) (mk_difference 10 10 5 5)).
Proof.
  apply (box_add_grows (mk_geometry 0 0 200 100) (mk_difference 10 10 5 5));
    simpl; first [lia | apply in_intb_spec; reflexivity].
Defined.
